(** * HeritageBakes offline storage: outbox queue and sync pass

    A shallow embedding of [client/src/offlineStorage] (the idb-keyval backed
    local store, the outbox of offline mutations and [processOutbox]) and of
    the local-store effects of [logout] in [client/src/lib/auth-context.tsx],
    followed by its callers: [saveOffline] and [syncRecipes] of the recipe
    form and the query function of [client/src/lib/queryClient.ts].

    Conventions of the embedding:
    - the idb-keyval store is a record of its four slots, each slot absent
      ([None]) or holding a value; [get] of an absent slot is [undefined];
    - every exported function of the module that only touches the store is a
      state transformer over [Store], named as in the source;
    - [processOutbox] additionally talks to the network; it runs in a small
      state-and-exception monad over [World], which pairs the store with the
      log of the [fetch] calls issued so far;
    - the remote API is a function from the history of requests and the
      current request to the outcome of [fetch], so a server may answer each
      call differently;
    - storage operations themselves are taken to succeed, and the payload of
      an outbox item is a recipe object (an [id] property and the remaining
      properties). *)

From stdpp Require Import base option list strings pretty.

Open Scope string_scope.
Open Scope Z_scope.
Open Scope list_scope.

(** ** JavaScript values that occur as identifiers *)

Inductive JsVal :=
| JUndefined
| JNull
| JNum (n : Z)
| JStr (s : string).

#[global] Instance JsVal_eq_dec : EqDecision JsVal.
Proof. solve_decision. Defined.

(** String conversion as performed by a template literal. *)
Definition toString (v : JsVal) : string :=
  match v with
  | JUndefined => "undefined"
  | JNull => "null"
  | JNum n => pretty n
  | JStr s => s
  end.

(** The properties of an object other than [id]. *)
Definition Props := list (string * JsVal).

(** A cached recipe or the payload of a mutation: [{ id, ...rest }]. *)
Record Recipe := mkRecipe {
  recipe_id : JsVal;
  recipe_rest : Props
}.

#[global] Instance Recipe_eq_dec : EqDecision Recipe.
Proof. solve_decision. Defined.

Definition User := Props.

(** ** Outbox items *)

Inductive OpType := Create | Update | Delete.
Inductive Status := Pending | Syncing | Synced | Error.

#[global] Instance OpType_eq_dec : EqDecision OpType.
Proof. solve_decision. Defined.
#[global] Instance Status_eq_dec : EqDecision Status.
Proof. solve_decision. Defined.

Record OutboxItem := mkItem {
  item_id : string;
  item_type : OpType;
  item_data : Recipe;
  item_timestamp : Z;
  item_status : Status;
  item_error : option string
}.

#[global] Instance OutboxItem_eq_dec : EqDecision OutboxItem.
Proof. solve_decision. Defined.

(** [Omit<OutboxItem, 'id' | 'status' | 'timestamp'>] *)
Record NewItem := mkNewItem {
  new_type : OpType;
  new_data : Recipe;
  new_error : option string
}.

(** [Partial<OutboxItem>]: a field that is present overrides the item's. *)
Record Updates := mkUpdates {
  upd_id : option string;
  upd_type : option OpType;
  upd_data : option Recipe;
  upd_timestamp : option Z;
  upd_status : option Status;
  upd_error : option string
}.

Definition no_updates : Updates :=
  {| upd_id := None; upd_type := None; upd_data := None;
     upd_timestamp := None; upd_status := None; upd_error := None |}.

(** [{ ...item, ...updates }] *)
Definition merge (item : OutboxItem) (u : Updates) : OutboxItem :=
  {| item_id := default (item_id item) (upd_id u);
     item_type := default (item_type item) (upd_type u);
     item_data := default (item_data item) (upd_data u);
     item_timestamp := default (item_timestamp item) (upd_timestamp u);
     item_status := default (item_status item) (upd_status u);
     item_error := match upd_error u with
                   | Some e => Some e
                   | None => item_error item
                   end |}.

(** ** The local store *)

Record Store := mkStore {
  slot_user : option User;
  slot_token : option string;
  slot_recipes : option (list Recipe);
  slot_outbox : option (list OutboxItem)
}.

Definition empty_store : Store :=
  {| slot_user := None; slot_token := None;
     slot_recipes := None; slot_outbox := None |}.

(** Store operations: an asynchronous call on the store takes the store to a
    result and the store after the call. *)
Definition StoreOp (A : Type) : Type := Store → A * Store.

Definition set_user (v : option User) (s : Store) : Store :=
  {| slot_user := v; slot_token := slot_token s;
     slot_recipes := slot_recipes s; slot_outbox := slot_outbox s |}.
Definition set_token (v : option string) (s : Store) : Store :=
  {| slot_user := slot_user s; slot_token := v;
     slot_recipes := slot_recipes s; slot_outbox := slot_outbox s |}.
Definition set_recipes (v : option (list Recipe)) (s : Store) : Store :=
  {| slot_user := slot_user s; slot_token := slot_token s;
     slot_recipes := v; slot_outbox := slot_outbox s |}.
Definition set_outbox (v : option (list OutboxItem)) (s : Store) : Store :=
  {| slot_user := slot_user s; slot_token := slot_token s;
     slot_recipes := slot_recipes s; slot_outbox := v |}.

(** User info *)
Definition saveUser (user : User) : StoreOp unit :=
  λ s, (tt, set_user (Some user) s).
Definition getUser : StoreOp (option User) :=
  λ s, (slot_user s, s).
Definition clearUser : StoreOp unit :=
  λ s, (tt, set_user None s).

(** Auth token *)
Definition saveToken (token : string) : StoreOp unit :=
  λ s, (tt, set_token (Some token) s).
Definition getToken : StoreOp (option string) :=
  λ s, (slot_token s, s).
Definition clearToken : StoreOp unit :=
  λ s, (tt, set_token None s).

(** Recipes *)
Definition saveRecipes (recipes : list Recipe) : StoreOp unit :=
  λ s, (tt, set_recipes (Some recipes) s).
Definition getRecipes : StoreOp (list Recipe) :=
  λ s, (default [] (slot_recipes s), s).

(** [array.findIndex(p)]: the first index whose element satisfies [p]. *)
Definition findIndex {A} (P : A → Prop) `{∀ x, Decision (P x)}
    (l : list A) : option nat :=
  fst <$> list_find P l.

Definition saveRecipe (recipe : Recipe) : StoreOp Recipe :=
  λ s,
    let '(recipes, s1) := getRecipes s in
    let recipes' :=
      match findIndex (λ r, recipe_id r = recipe_id recipe) recipes with
      | Some existingIndex => <[existingIndex := recipe]> recipes
      | None => recipes ++ [recipe]
      end in
    let '(_, s2) := saveRecipes recipes' s1 in
    (recipe, s2).

Definition getRecipe (id : JsVal) : StoreOp (option Recipe) :=
  λ s,
    let '(recipes, s1) := getRecipes s in
    (snd <$> list_find (λ recipe, recipe_id recipe = id) recipes, s1).

Definition deleteRecipe (id : JsVal) : StoreOp JsVal :=
  λ s,
    let '(recipes, s1) := getRecipes s in
    let updatedRecipes := filter (λ recipe, recipe_id recipe ≠ id) recipes in
    let '(_, s2) := saveRecipes updatedRecipes s1 in
    (id, s2).

(** Outbox for offline mutations *)
Definition getOutbox : StoreOp (list OutboxItem) :=
  λ s, (default [] (slot_outbox s), s).

(** [addToOutbox] reads the clock twice: [now_id] is the reading used for the
    identifier, [now_ts] the one stored as the timestamp. *)
Definition addToOutbox (item : NewItem) (now_id now_ts : Z) : StoreOp string :=
  λ s,
    let '(outbox, s1) := getOutbox s in
    let id := "offline_" +:+ pretty now_id in
    let newItem :=
      {| item_id := id;
         item_type := new_type item;
         item_data := new_data item;
         item_timestamp := now_ts;
         item_status := Pending;
         item_error := new_error item |} in
    (id, set_outbox (Some (outbox ++ [newItem])) s1).

Definition updateOutboxItem (id : string) (updates : Updates)
    : StoreOp (option OutboxItem) :=
  λ s,
    let '(outbox, s1) := getOutbox s in
    match list_find (λ item, item_id item = id) outbox with
    | None => (None, s1)
    | Some (index, found) =>
        let updatedItem := merge found updates in
        (Some updatedItem, set_outbox (Some (<[index := updatedItem]> outbox)) s1)
    end.

Definition removeFromOutbox (id : string) : StoreOp string :=
  λ s,
    let '(outbox, s1) := getOutbox s in
    let updatedOutbox := filter (λ item, item_id item ≠ id) outbox in
    (id, set_outbox (Some updatedOutbox) s1).


(** The effect of [logout] (auth-context) on the local store: it calls
    [clearToken()] and [clearUser()]; its other statements touch
    [localStorage], React state and the query cache only. *)
Definition logout : StoreOp unit :=
  λ s,
    let '(_, s1) := clearToken s in
    clearUser s1.

(** ** The network *)

Inductive Method := POST | PUT | DELETE.

#[global] Instance Method_eq_dec : EqDecision Method.
Proof. solve_decision. Defined.

(** The argument of a [fetch] call; [req_body] is the object handed to
    [JSON.stringify], absent for a DELETE. *)
Record Request := mkRequest {
  req_url : string;
  req_method : Method;
  req_headers : list (string * string);
  req_body : option Props;
  req_credentials : string
}.

(** A thrown value: an [Error] object with its message, or anything else. *)
Inductive Exn :=
| JsError (message : string)
| JsOther.

(** What [response.json()] yields: a rejection, the value [null], or a value
    whose [id] property reads as the given one ([JUndefined] when it has
    none). *)
Inductive Body :=
| BodyUnparsable (e : Exn)
| BodyNull
| BodyValue (id : JsVal).

Record Response := mkResponse {
  resp_ok : bool;
  resp_status : Z;
  resp_json : Body
}.

Inductive FetchOutcome :=
| Rejects (e : Exn)
| Resolves (r : Response).

(** The remote API: the outcome of a call given the calls issued before it,
    oldest first. *)
Definition Api := list Request → Request → FetchOutcome.

(** The host environment of one sync pass. *)
Record Env := mkEnv {
  onLine : bool;
  api : Api
}.

Record World := mkWorld {
  store : Store;
  requests : list Request
}.

(** ** Asynchronous code that may throw *)

Inductive Result (A : Type) :=
| Ok (a : A)
| Throw (e : Exn).
Arguments Ok {A} a.
Arguments Throw {A} e.

Definition M (A : Type) : Type := World → Result A * World.

Definition ret {A} (a : A) : M A := λ w, (Ok a, w).
Definition throw {A} (e : Exn) : M A := λ w, (Throw e, w).
Definition bind {A B} (m : M A) (k : A → M B) : M B :=
  λ w, match m w with
       | (Ok a, w') => k a w'
       | (Throw e, w') => (Throw e, w')
       end.

(** [let! x := m in k] reads [const x = await m; k]. *)
Notation "'let!' x ':=' m 'in' k" := (bind m (λ x, k))
  (at level 10, x name, m at level 100, k at level 200,
   format "'[v' 'let!'  x  :=  m  'in' '/' k ']'").

(** A store operation run inside the sync pass. *)
Definition onStore {A} (op : StoreOp A) : M A :=
  λ w, let '(a, s) := op (store w) in
       (Ok a, {| store := s; requests := requests w |}).

(** [fetch(url, init)] against the API of the environment. *)
Definition fetch (env : Env) (req : Request) : M Response :=
  λ w,
    let w' := {| store := store w; requests := requests w ++ [req] |} in
    match api env (requests w) req with
    | Rejects e => (Throw e, w')
    | Resolves r => (Ok r, w')
    end.

(** [await response.json()] *)
Definition json (r : Response) : M Body :=
  match resp_json r with
  | BodyUnparsable e => throw e
  | b => ret b
  end.

(** [result.id]; reading a property of [null] is a [TypeError]. *)
Definition result_id (result : Body) : M JsVal :=
  match result with
  | BodyValue id => ret id
  | _ => throw (JsError "Cannot read properties of null (reading 'id')")
  end.

(** [!token] *)
Definition falsy (token : option string) : bool :=
  match token with
  | None => true
  | Some t => bool_decide (t = "")
  end.

(** ** The sync pass *)

Definition create_or_update_request (item : OutboxItem) (token : string)
    : Request :=
  let data := recipe_rest (item_data item) in
  let method := if decide (item_type item = Create) then POST else PUT in
  let url := if decide (item_type item = Create)
             then "/api/recipes"
             else "/api/recipes/" +:+ toString (recipe_id (item_data item)) in
  {| req_url := url;
     req_method := method;
     req_headers := [("Content-Type", "application/json");
                     ("Authorization", "Bearer " +:+ token)];
     req_body := Some data;
     req_credentials := "include" |}.

Definition delete_request (item : OutboxItem) (token : string) : Request :=
  {| req_url := "/api/recipes/" +:+ toString (recipe_id (item_data item));
     req_method := DELETE;
     req_headers := [("Authorization", "Bearer " +:+ token)];
     req_body := None;
     req_credentials := "include" |}.

(** [{ ...recipe, id }] *)
Definition with_id (recipe : Recipe) (id : JsVal) : Recipe :=
  {| recipe_id := id; recipe_rest := recipe_rest recipe |}.

(** The local ID mapping of a create whose server id differs. *)
Definition remap_id (item : OutboxItem) (server_id : JsVal) : M unit :=
  let! recipes := onStore getRecipes in
  match list_find (λ r, recipe_id r = recipe_id (item_data item)) recipes with
  | Some (recipeIndex, found) =>
      onStore (saveRecipes (<[recipeIndex := with_id found server_id]> recipes))
  | None => ret tt
  end.

(** The [switch (item.type)] statement. *)
Definition dispatch (env : Env) (item : OutboxItem) (token : string) : M unit :=
  match item_type item with
  | Create | Update =>
      let! response := fetch env (create_or_update_request item token) in
      if negb (resp_ok response)
      then throw (JsError ("Server returned " +:+ pretty (resp_status response)))
      else
        let! result := json response in
        if decide (item_type item = Create)
        then
          let! rid := result_id result in
          if decide (rid ≠ recipe_id (item_data item))
          then remap_id item rid
          else ret tt
        else ret tt
  | Delete =>
      let! _ := fetch env (delete_request item token) in
      ret tt
  end.

Definition mark (st : Status) (err : option string) : Updates :=
  {| upd_id := None; upd_type := None; upd_data := None;
     upd_timestamp := None; upd_status := Some st; upd_error := err |}.

(** The body of the [try] block for one pending item. *)
Definition try_sync (env : Env) (item : OutboxItem) : M unit :=
  let! _ := onStore (updateOutboxItem (item_id item) (mark Syncing None)) in
  let! token := onStore getToken in
  if falsy token
  then throw (JsError "No authentication token available")
  else
    let! _ := dispatch env item (default "" token) in
    let! _ := onStore (removeFromOutbox (item_id item)) in
    ret tt.

(** [error instanceof Error ? error.message : 'Unknown error'] *)
Definition error_message (e : Exn) : string :=
  match e with
  | JsError message => message
  | JsOther => "Unknown error"
  end.

(** One iteration of the [for ... of] loop, with the two counters. *)
Definition sync_item (env : Env) (item : OutboxItem) (counts : nat * nat)
    (w : World) : (nat * nat) * World :=
  let '(synced, errors) := counts in
  match try_sync env item w with
  | (Ok _, w') => ((S synced, errors), w')
  | (Throw e, w') =>
      let '(_, w'') :=
        onStore (updateOutboxItem (item_id item)
                   (mark Error (Some (error_message e)))) w' in
      ((synced, S errors), w'')
  end.

Fixpoint sync_items (env : Env) (items : list OutboxItem)
    (counts : nat * nat) (w : World) : (nat * nat) * World :=
  match items with
  | [] => (counts, w)
  | item :: rest =>
      let '(counts', w') := sync_item env item counts w in
      sync_items env rest counts' w'
  end.

Record SyncResult := mkSyncResult {
  synced : nat;
  errors : nat
}.

(** The items a pass works on: the pending ones, in stored order. *)
Definition pendingItems (s : Store) : list OutboxItem :=
  filter (λ item, item_status item = Pending) (fst (getOutbox s)).

Definition processOutbox (env : Env) (w : World) : SyncResult * World :=
  if negb (onLine env) then ({| synced := 0; errors := 0 |}, w)
  else
    let '(counts, w') := sync_items env (pendingItems (store w)) (0%nat, 0%nat) w in
    ({| synced := fst counts; errors := snd counts |}, w').

(** ** Views of the state used in the statements *)

Definition outbox_of (w : World) : list OutboxItem := fst (getOutbox (store w)).
Definition recipes_of (w : World) : list Recipe := fst (getRecipes (store w)).

(** The stored list after [updateOutboxItem id u] and after
    [removeFromOutbox id], as functions of the stored list before. *)
Definition updated (id : string) (u : Updates) (l : list OutboxItem)
    : list OutboxItem :=
  match list_find (λ item, item_id item = id) l with
  | Some (index, found) => <[index := merge found u]> l
  | None => l
  end.

Definition removed (id : string) (l : list OutboxItem) : list OutboxItem :=
  filter (λ item, item_id item ≠ id) l.

(** An item as the [catch] block leaves it. *)
Definition failed (item : OutboxItem) (e : Exn) : OutboxItem :=
  merge item (mark Error (Some (error_message e))).

(** One call of [addToOutbox] with its two clock readings. *)
Record Enqueue := mkEnqueue {
  enq_item : NewItem;
  enq_now_id : Z;
  enq_now_ts : Z
}.

Fixpoint enqueue_all (ops : list Enqueue) (s : Store) : Store :=
  match ops with
  | [] => s
  | op :: rest =>
      enqueue_all rest
        (snd (addToOutbox (enq_item op) (enq_now_id op) (enq_now_ts op) s))
  end.

(** The request a pending item gives rise to. *)
Definition request_of (item : OutboxItem) (token : string) : Request :=
  match item_type item with
  | Delete => delete_request item token
  | _ => create_or_update_request item token
  end.

(** The counters and the world after the loop has worked through [items],
    counted from zero. *)
Definition pass_counts (env : Env) (items : list OutboxItem) (w : World)
    : nat * nat :=
  fst (sync_items env items (0, 0)%nat w).
Definition pass_world (env : Env) (items : list OutboxItem) (w : World)
    : World :=
  snd (sync_items env items (0, 0)%nat w).

(** The exception of the [if (!token)] guard. *)
Definition no_token : Exn := JsError "No authentication token available".

(** The item [addToOutbox] appends for one call. *)
Definition enqueued (op : Enqueue) : OutboxItem :=
  {| item_id := "offline_" +:+ pretty (enq_now_id op);
     item_type := new_type (enq_item op);
     item_data := new_data (enq_item op);
     item_timestamp := enq_now_ts op;
     item_status := Pending;
     item_error := new_error (enq_item op) |}.


(** An API whose every call succeeds: it resolves with a success status and
    a JSON body that is not [null]. *)
Definition always_succeeds (a : Api) : Prop :=
  ∀ log req, ∃ status id,
    a log req = Resolves {| resp_ok := true; resp_status := status;
                            resp_json := BodyValue id |}.


(** Every exception the API raises carries a non-empty message. *)
Definition errors_carry_messages (a : Api) : Prop :=
  ∀ log req,
    match a log req with
    | Rejects e => error_message e ≠ ""
    | Resolves r =>
        match resp_json r with
        | BodyUnparsable e => error_message e ≠ ""
        | _ => True
        end
    end.

(** ** Sample data *)

Definition pie : Recipe :=
  {| recipe_id := JStr "temp_abc"; recipe_rest := [("title", JStr "Pie")] |}.

Definition create_pie : NewItem :=
  {| new_type := Create; new_data := pie; new_error := None |}.

Definition delete_pie : NewItem :=
  {| new_type := Delete; new_data := pie; new_error := None |}.

Definition logged_in : Store := snd (saveToken "tok" empty_store).

Definition api_down : Api := λ _ _, Rejects (JsError "Failed to fetch").

Definition api_answers (id : JsVal) : Api :=
  λ _ _, Resolves {| resp_ok := true; resp_status := 200;
                     resp_json := BodyValue id |}.

Definition api_not_found : Api :=
  λ _ _, Resolves {| resp_ok := false; resp_status := 404;
                     resp_json := BodyNull |}.

Definition online (a : Api) : Env := {| onLine := true; api := a |}.
Definition offline (a : Api) : Env := {| onLine := false; api := a |}.

Definition fresh (s : Store) : World := {| store := s; requests := [] |}.

Definition enqueue_create : Enqueue :=
  {| enq_item := create_pie; enq_now_id := 5; enq_now_ts := 5 |}.
Definition enqueue_delete : Enqueue :=
  {| enq_item := delete_pie; enq_now_id := 6; enq_now_ts := 6 |}.

(** Logged in, the pie cached under its temporary id, its creation queued. *)
Definition w_pie : World :=
  fresh (enqueue_all [enqueue_create] (snd (saveRecipe pie logged_in))).


(** Logged in, a deletion queued. *)
Definition w_delete : World :=
  fresh (enqueue_all [enqueue_delete] logged_in).

(** No token in the store, the creation queued. *)
Definition w_logged_out : World :=
  fresh (enqueue_all [enqueue_create] empty_store).

(** No token, two creations queued within the same millisecond. *)
Definition w_same_tick : World :=
  fresh (enqueue_all [enqueue_create; enqueue_create] empty_store).

(** [w_pie] after a pass during which the server could not be reached. *)
Definition w_failed : World := snd (processOutbox (online api_down) w_pie).

(** [w_failed] with a deletion queued afterwards. *)
Definition w_failed_then_delete : World :=
  {| store := enqueue_all [enqueue_delete] (store w_failed);
     requests := requests w_failed |}.

(** [w_failed] with a deletion queued afterwards, the clock reading of the
    first call repeating. *)
Definition w_failed_then_same_tick : World :=
  {| store := enqueue_all [{| enq_item := delete_pie; enq_now_id := 5;
                              enq_now_ts := 5 |}] (store w_failed);
     requests := requests w_failed |}.

(** ** Callers in the recipe form *)

(** What the form does to React Query and to the screen. *)
Inductive UiEffect :=
| SetQueryData (recipes : list Recipe)
| InvalidateQueries
| ShowToast (title description variant : string).

(** [saveOffline] of [createRecipeMutation]: the recipe is cached, its
    creation is queued, and the cached list followed by the recipe is handed
    to the query cache. *)
Definition saveOffline (recipeData : Recipe) (now_id now_ts : Z)
    : StoreOp (Recipe * list UiEffect) :=
  λ s,
    let '(_, s1) := saveRecipe recipeData s in
    let '(_, s2) :=
      addToOutbox {| new_type := Create; new_data := recipeData;
                     new_error := None |} now_id now_ts s1 in
    let '(currentRecipes, s3) := getRecipes s2 in
    ((recipeData, [SetQueryData (currentRecipes ++ [recipeData])]), s3).

(** [syncRecipes]: a pass when online, with its notifications. Its [catch]
    block ("Sync Failed") has nothing to catch here: storage operations are
    taken to succeed, so [processOutbox] itself does not throw. *)
Definition syncRecipes (env : Env) (w : World) : list UiEffect * World :=
  if negb (onLine env) then ([], w)
  else
    let '(result, w') := processOutbox env w in
    ((if decide (0 < synced result)%nat
      then [InvalidateQueries;
            ShowToast "Sync Complete"
              ("Successfully synced " +:+ pretty (synced result) +:+ " recipe(s)")
              "default"]
      else []) ++
     (if decide (0 < errors result)%nat
      then [ShowToast "Sync Warning"
              ("Failed to sync " +:+ pretty (errors result) +:+
               " recipe(s). Please check your connection and try again.")
              "destructive"]
      else []),
     w').

(** ** The query function of the query client *)

(** An element of a query key: a string, or anything else. *)
Inductive KeyPart :=
| KStr (key : string)
| KOther.

(** [isRecipesQuery]: some element is the recipes path or lies below it. *)
Definition isRecipesQuery (queryKey : list KeyPart) : bool :=
  existsb (λ key, match key with
                  | KStr k => bool_decide (k = "/api/recipes")
                              || String.prefix "/api/recipes/" k
                  | KOther => false
                  end) queryKey.

(** The argument of the [fetch] of a query (a GET). *)
Record QueryRequest := mkQueryRequest {
  q_url : string;
  q_headers : list (string * string);
  q_credentials : string
}.

(** What a query resolves to: an array of recipes, or some other value. *)
Inductive QueryData :=
| DataArray (recipes : list Recipe)
| DataOther.

Record QueryResponse := mkQueryResponse {
  q_status : Z;
  q_text : string;
  q_statusText : string;
  q_json : Exn + QueryData
}.

(** [response.ok]: the status is in the range 200-299. *)
Definition q_ok (res : QueryResponse) : bool :=
  (200 <=? q_status res) && (q_status res <=? 299).

Record QueryEnv := mkQueryEnv {
  q_onLine : bool;
  q_localToken : option string;
  q_apiUrl : string;
  q_fetch : QueryRequest → Exn + QueryResponse
}.

Inductive UnauthorizedBehavior := returnNull | throwOn401.

#[global] Instance UnauthorizedBehavior_eq_dec : EqDecision UnauthorizedBehavior.
Proof. solve_decision. Defined.

Inductive QueryResult :=
| Returned (data : QueryData)
| ReturnedNull
| Threw (e : Exn).

(** Truthiness of an array: every array is truthy, the empty one included. *)
Definition truthy_array {A} (l : list A) : bool := true.

(** [throwIfResNotOk]: the exception it throws, if any. *)
Definition throwIfResNotOk (res : QueryResponse) : option Exn :=
  if negb (q_ok res)
  then
    let text := if bool_decide (q_text res = "")
                then q_statusText res else q_text res in
    Some (JsError (pretty (q_status res) +:+ ": " +:+ text))
  else None.

(** [queryKey[0]] prefixed with the base URL unless it is absolute; reading
    [startsWith] off a missing or non-string element is a [TypeError]. *)
Definition query_url (qenv : QueryEnv) (queryKey : list KeyPart)
    : Exn + string :=
  match queryKey with
  | [] =>
      inl (JsError "Cannot read properties of undefined (reading 'startsWith')")
  | KOther :: _ => inl (JsError "queryKey[0].startsWith is not a function")
  | KStr k :: _ =>
      inr (if String.prefix "http" k then k else q_apiUrl qenv +:+ k)
  end.

(** The function [getQueryFn(options)] returns, applied to a query key: its
    result, the requests it issued, and the store afterwards. [res.text()]
    is taken to resolve, and an array answer to be an array of recipes. *)
Definition getQueryFn (on401 : UnauthorizedBehavior) (qenv : QueryEnv)
    (queryKey : list KeyPart)
    : StoreOp (QueryResult * list QueryRequest) :=
  λ s,
    let isOffline := negb (q_onLine qenv) in
    let isRecipeQuery := isRecipesQuery queryKey in
    let cachedRecipes := fst (getRecipes s) in
    if isOffline && isRecipeQuery && truthy_array cachedRecipes
    then ((Returned (DataArray cachedRecipes), []), s)
    else
      let token := q_localToken qenv in
      let headers :=
        if falsy token then []
        else [("Authorization", "Bearer " +:+ default "" token)] in
      match query_url qenv queryKey with
      | inl e => ((Threw e, []), s)
      | inr url =>
          let req := {| q_url := url; q_headers := headers;
                        q_credentials := "include" |} in
          (* the [try] block; [caught e] is its [catch] *)
          let caught (e : Exn) (s' : Store) :=
            if isOffline && isRecipeQuery
               && truthy_array (fst (getRecipes s'))
            then ((Returned (DataArray (fst (getRecipes s'))), [req]), s')
            else ((Threw e, [req]), s') in
          match q_fetch qenv req with
          | inl e => caught e s
          | inr res =>
              if bool_decide (on401 = returnNull)
                 && bool_decide (q_status res = 401)
              then ((ReturnedNull, [req]), s)
              else
                match throwIfResNotOk res with
                | Some e => caught e s
                | None =>
                    match q_json res with
                    | inl e => caught e s
                    | inr data =>
                        match data with
                        | DataArray recipes =>
                            if isRecipeQuery
                            then ((Returned data, [req]),
                                  snd (saveRecipes recipes s))
                            else ((Returned data, [req]), s)
                        | DataOther => ((Returned data, [req]), s)
                        end
                    end
                end
          end
      end.

Definition queued_create (recipe : Recipe) (now_id now_ts : Z) : OutboxItem :=
  enqueued {| enq_item := {| new_type := Create; new_data := recipe;
                             new_error := None |};
              enq_now_id := now_id; enq_now_ts := now_ts |}.

(** The request of a query whose first key element is [k]. *)
Definition query_request (qenv : QueryEnv) (k : string) : QueryRequest :=
  {| q_url := if String.prefix "http" k then k else q_apiUrl qenv +:+ k;
     q_headers :=
       if falsy (q_localToken qenv) then []
       else [("Authorization", "Bearer " +:+ default "" (q_localToken qenv))];
     q_credentials := "include" |}.


(** *** Sample queries *)

Definition recipes_key : list KeyPart := [KStr "/api/recipes"].

Definition server_pie : Recipe :=
  {| recipe_id := JNum 7; recipe_rest := [("title", JStr "Pie")] |}.

(** A server that answers a query with the list holding [server_pie]. *)
Definition qenv_server : QueryEnv :=
  {| q_onLine := true; q_localToken := Some "tok"; q_apiUrl := "";
     q_fetch := λ _, inr {| q_status := 200; q_text := ""; q_statusText := "OK";
                            q_json := inr (DataArray [server_pie]) |} |}.

(** Online, but the request does not go through. *)
Definition qenv_unreachable : QueryEnv :=
  {| q_onLine := true; q_localToken := Some "tok"; q_apiUrl := "";
     q_fetch := λ _, inl (JsError "Failed to fetch") |}.

(** Offline. *)
Definition qenv_offline : QueryEnv :=
  {| q_onLine := false; q_localToken := Some "tok"; q_apiUrl := "";
     q_fetch := λ _, inl (JsError "Failed to fetch") |}.

(** A server that rejects the token. *)
Definition qenv_unauthorized : QueryEnv :=
  {| q_onLine := true; q_localToken := Some "old"; q_apiUrl := "";
     q_fetch := λ _, inr {| q_status := 401; q_text := "";
                            q_statusText := "Unauthorized";
                            q_json := inl (JsError "Unexpected end of JSON input") |} |}.

(** * Properties *)

(** ** Lists *)

Section list_facts.
Context {A : Type} (P : A → Prop) `{!∀ x, Decision (P x)}.

(** Nothing passes a filter that every element fails. *)
Lemma filter_none (l : list A) :
  (∀ x, x ∈ l → ¬ P x) → filter P l = [].
Proof.
  induction l as [|a l IH]; intros Hl; [done|].
  rewrite filter_cons_False by (apply Hl; left).
  apply IH. intros x Hx. apply Hl. by right.
Qed.

(** Replacing an element outside the filter by another one outside it. *)
Lemma filter_insert_outside (l : list A) k x y :
  l !! k = Some x → ¬ P x → ¬ P y → filter P (<[k := y]> l) = filter P l.
Proof.
  revert k. induction l as [|a l IH]; intros [|k] Hk Hx Hy; simplify_eq/=.
  - by rewrite !filter_cons_False by done.
  - rewrite !filter_cons. by rewrite (IH k).
Qed.

(** A filter absorbs a weaker filter applied before it. *)
Lemma filter_filter_implied (Q : A → Prop) {HQ : ∀ x, Decision (Q x)}
    (l : list A) :
  (∀ x, P x → Q x) → filter P (filter Q l) = filter P l.
Proof.
  intros HPQ. rewrite list_filter_filter. apply list_filter_iff.
  intros x; split; [by intros [? ?] | auto].
Qed.

(** A filter commutes with a map that does not change its verdict. *)
Lemma filter_fmap_stable (f : A → A) (l : list A) :
  (∀ x, P (f x) ↔ P x) → filter P (f <$> l) = f <$> filter P l.
Proof.
  intros Hf. induction l as [|a l IH]; [done|].
  rewrite fmap_cons. destruct (decide (P a)) as [Ha|Ha].
  - rewrite (filter_cons_True P a) by done.
    rewrite (filter_cons_True P (f a)) by (by apply Hf).
    rewrite fmap_cons. by f_equal.
  - rewrite (filter_cons_False P a) by done.
    rewrite (filter_cons_False P (f a)) by (by rewrite Hf). done.
Qed.


End list_facts.

(** ** The stored list under [updateOutboxItem] and [removeFromOutbox] *)

(** Marking an item changes no identifier. *)
Lemma updated_ids id st err l :
  item_id <$> updated id (mark st err) l = item_id <$> l.
Proof.
  unfold updated. destruct (list_find _ l) as [[k x]| ] eqn:Hf; [ |done].
  apply list_find_Some in Hf as (Hk & _ & _).
  rewrite list_fmap_insert. apply list_insert_id.
  by rewrite list_lookup_fmap, Hk.
Qed.

(** Marking the item [id] leaves the items outside [id] as they are. *)
Lemma updated_frame (P : OutboxItem → Prop) `{!∀ x, Decision (P x)}
    id st err l :
  (∀ x, P x → item_id x ≠ id) →
  filter P (updated id (mark st err) l) = filter P l.
Proof.
  intros HP. unfold updated.
  destruct (list_find _ l) as [[k x]| ] eqn:Hf; [ |done].
  apply list_find_Some in Hf as (Hk & Hx & _).
  eapply filter_insert_outside; [done| |]; intros HPx; by apply HP in HPx.
Qed.

(** So does removing the item [id]. *)
Lemma removed_frame (P : OutboxItem → Prop) `{!∀ x, Decision (P x)} id l :
  (∀ x, P x → item_id x ≠ id) →
  filter P (removed id l) = filter P l.
Proof. intros HP. unfold removed. by apply filter_filter_implied. Qed.

Lemma removed_ids id l :
  item_id <$> removed id l = filter (λ j, j ≠ id) (item_id <$> l).
Proof.
  unfold removed. induction l as [|a l IH]; [done|].
  rewrite fmap_cons. destruct (decide (item_id a = id)) as [Heq|Hne].
  - rewrite !filter_cons_False by naive_solver. done.
  - rewrite !filter_cons_True by done. rewrite fmap_cons. by f_equal.
Qed.

Lemma removed_no_id id l x : x ∈ removed id l → item_id x ≠ id.
Proof. unfold removed. by intros [? ?]%list_elem_of_filter. Qed.

Lemma ids_absent_sublist (l1 l2 : list OutboxItem) id :
  item_id <$> l1 `sublist_of` item_id <$> l2 →
  (∀ x, x ∈ l2 → item_id x ≠ id) → ∀ x, x ∈ l1 → item_id x ≠ id.
Proof.
  intros Hsub Hl2 x Hx Heq.
  assert (id ∈ item_id <$> l2) as Hin.
  { eapply elem_of_sublist; [ |done]. rewrite <- Heq. by apply list_elem_of_fmap_2. }
  apply list_elem_of_fmap in Hin as (y & Hy & Hyin). by apply (Hl2 y).
Qed.

(** With pairwise distinct identifiers an item is determined by its id. *)
Lemma NoDup_ids_eq (l : list OutboxItem) x y :
  NoDup (item_id <$> l) → x ∈ l → y ∈ l → item_id x = item_id y → x = y.
Proof.
  intros Hnd (i & Hi)%list_elem_of_lookup (j & Hj)%list_elem_of_lookup Heq.
  assert (i = j) as ->.
  { eapply (NoDup_lookup _ _ _ (item_id x) Hnd).
    - by rewrite list_lookup_fmap, Hi.
    - by rewrite list_lookup_fmap, Hj, Heq. }
  congruence.
Qed.

Lemma filter_own_id (l : list OutboxItem) x :
  NoDup (item_id <$> l) → x ∈ l →
  filter (λ y, item_id y = item_id x) l = [x].
Proof.
  induction l as [|a l IH]; intros Hnd Hx; [by apply elem_of_nil in Hx|].
  rewrite fmap_cons in Hnd. apply NoDup_cons in Hnd as [Ha Hnd].
  apply elem_of_cons in Hx as [->|Hx].
  - rewrite filter_cons_True by done. f_equal. apply filter_none.
    intros y Hy Heq. apply Ha. rewrite <- Heq. by apply list_elem_of_fmap_2.
  - rewrite filter_cons_False; [by apply IH|].
    intros Heq. apply Ha. rewrite Heq. by apply list_elem_of_fmap_2.
Qed.

(** With pairwise distinct identifiers, marking [id] is a map over the list. *)
Lemma updated_NoDup id st err l :
  NoDup (item_id <$> l) →
  updated id (mark st err) l =
  (λ x, if decide (item_id x = id) then merge x (mark st err) else x) <$> l.
Proof.
  intros Hnd. unfold updated.
  destruct (list_find _ l) as [[k y]| ] eqn:Hf.
  - apply list_find_Some in Hf as (Hk & Hy & _).
    apply list_eq. intros j. rewrite list_lookup_fmap.
    destruct (decide (j = k)) as [->|Hne].
    + rewrite list_lookup_insert_eq by (by eapply lookup_lt_Some).
      rewrite Hk. simpl. by rewrite decide_True.
    + rewrite list_lookup_insert_ne by done.
      destruct (l !! j) as [z| ] eqn:Hj; [ |done]. simpl.
      rewrite decide_False; [done|]. intros Hz. apply Hne.
      eapply (NoDup_lookup _ _ _ id Hnd).
      * by rewrite list_lookup_fmap, Hj, <- Hz.
      * by rewrite list_lookup_fmap, Hk, <- Hy.
  - apply list_find_None in Hf. rewrite Forall_forall in Hf.
    rewrite <- (list_fmap_id l) at 1. apply list_fmap_ext. intros i x Hi.
    rewrite decide_False; [done|]. apply Hf. by eapply list_elem_of_lookup_2.
Qed.

Lemma updated_own id st err l x :
  NoDup (item_id <$> l) →
  filter (λ y, item_id y = id) l = [x] →
  filter (λ y, item_id y = id) (updated id (mark st err) l) =
    [merge x (mark st err)].
Proof.
  intros Hnd Hx. rewrite updated_NoDup by done.
  rewrite filter_fmap_stable, Hx.
  - simpl. rewrite decide_True; [done|].
    assert (x ∈ filter (λ y, item_id y = id) l) as Hin by (rewrite Hx; left).
    by apply list_elem_of_filter in Hin as [? _].
  - intros y. by destruct (decide (item_id y = id)).
Qed.

(** ** Store operations *)

(** [updateOutboxItem] writes the outbox slot only. *)
Lemma updateOutboxItem_store id u s :
  let s' := snd (updateOutboxItem id u s) in
  slot_user s' = slot_user s ∧ slot_token s' = slot_token s ∧
  slot_recipes s' = slot_recipes s ∧
  fst (getOutbox s') = updated id u (fst (getOutbox s)).
Proof.
  unfold updateOutboxItem, updated. simpl.
  destruct (list_find _ _) as [[k x]| ]; simpl; done.
Qed.

Lemma removeFromOutbox_store id s :
  let s' := snd (removeFromOutbox id s) in
  slot_user s' = slot_user s ∧ slot_token s' = slot_token s ∧
  slot_recipes s' = slot_recipes s ∧
  fst (getOutbox s') = removed id (fst (getOutbox s)).
Proof. done. Qed.

(** Enqueuing appends one pending item per call and touches nothing else. *)
Lemma enqueue_all_store ops s :
  slot_user (enqueue_all ops s) = slot_user s ∧
  slot_token (enqueue_all ops s) = slot_token s ∧
  slot_recipes (enqueue_all ops s) = slot_recipes s ∧
  fst (getOutbox (enqueue_all ops s)) = fst (getOutbox s) ++ (enqueued <$> ops).
Proof.
  revert s. induction ops as [|op ops IH]; intros s; cbn [enqueue_all].
  - by rewrite app_nil_r.
  - destruct (IH (snd (addToOutbox (enq_item op) (enq_now_id op) (enq_now_ts op) s)))
      as (-> & -> & -> & ->). simpl. by rewrite <- app_assoc.
Qed.

Lemma pending_in_outbox s x :
  x ∈ pendingItems s ↔ item_status x = Pending ∧ x ∈ fst (getOutbox s).
Proof.
  unfold pendingItems.
  apply (list_elem_of_filter (λ item, item_status item = Pending)).
Qed.

(** Closes a decidable statement about concrete data by evaluation. *)
Ltac by_evaluation := refine (bool_decide_unpack _ _); vm_compute; exact I.





(** [logout] itself calls [clearToken] and [clearUser], not
    [clearOfflineData]: the outbox slot stays as it is. *)
Lemma logout_store s :
  let s' := snd (logout s) in
  slot_user s' = None ∧ slot_token s' = None ∧ slot_outbox s' = slot_outbox s.
Proof. done. Qed.


(** ** One item of the pass *)

Arguments sync_item : simpl never.
Arguments try_sync : simpl never.
Arguments dispatch : simpl never.

(** Unfolds the asynchronous operations of [dispatch] down to the monad. *)
Ltac unfold_async :=
  unfold dispatch, request_of, remap_id, fetch, json, result_id, onStore,
    getRecipes, saveRecipes, throw, ret, bind.

Lemma falsy_false token :
  falsy token = false → ∃ tok, token = Some tok ∧ tok ≠ "".
Proof.
  destruct token as [tok| ]; [ |done]. simpl. intros H%bool_decide_eq_false. eauto.
Qed.

Lemma recipes_of_slot w w' :
  slot_recipes (store w') = slot_recipes (store w) → recipes_of w' = recipes_of w.
Proof. unfold recipes_of, getRecipes. simpl. by intros ->. Qed.

(** [dispatch] issues exactly one request and may only write the recipes. *)
Lemma dispatch_frame env item tok w r w2 :
  dispatch env item tok w = (r, w2) →
  slot_user (store w2) = slot_user (store w) ∧
  slot_token (store w2) = slot_token (store w) ∧
  slot_outbox (store w2) = slot_outbox (store w) ∧
  requests w2 = requests w ++ [request_of item tok].
Proof.
  unfold_async.
  intros H. repeat case_match; simplify_eq/=; done.
Qed.

(** It changes the cached recipes only by remapping a create. *)
Lemma dispatch_recipes env item tok w r w2 :
  dispatch env item tok w = (r, w2) →
  recipes_of w2 = recipes_of w ∨
  (item_type item = Create ∧
   ∃ resp rid k found,
     api env (requests w) (create_or_update_request item tok) = Resolves resp ∧
     resp_json resp = BodyValue rid ∧
     list_find (λ c, recipe_id c = recipe_id (item_data item)) (recipes_of w)
       = Some (k, found) ∧
     recipes_of w2 = <[k := with_id found rid]> (recipes_of w)).
Proof.
  unfold_async. unfold recipes_of.
  intros H. repeat case_match; simplify_eq/=; try (by left).
  right. split; [done|]. eauto 10.
Qed.

Lemma dispatch_delete env item tok w r :
  item_type item = Delete →
  api env (requests w) (delete_request item tok) = Resolves r →
  dispatch env item tok w =
  (Ok tt, {| store := store w;
             requests := requests w ++ [delete_request item tok] |}).
Proof.
  intros Hty Hr. unfold dispatch, fetch, ret, bind. by rewrite Hty, Hr.
Qed.

Lemma dispatch_create env item tok w r sid k found :
  item_type item = Create →
  api env (requests w) (create_or_update_request item tok) = Resolves r →
  resp_ok r = true → resp_json r = BodyValue sid →
  sid ≠ recipe_id (item_data item) →
  list_find (λ c, recipe_id c = recipe_id (item_data item)) (recipes_of w)
    = Some (k, found) →
  dispatch env item tok w =
  (Ok tt,
   {| store := set_recipes (Some (<[k := with_id found sid]> (recipes_of w)))
                 (store w);
      requests := requests w ++ [create_or_update_request item tok] |}).
Proof.
  intros Hty Hapi Hok Hbody Hne Hfind.
  unfold recipes_of in *. unfold_async.
  rewrite Hty, Hapi, Hok, Hbody. simpl.
  rewrite decide_True by done. rewrite ?decide_True by done.
  simpl in *. by rewrite Hfind.
Qed.

Lemma dispatch_succeeds env item tok w :
  always_succeeds (api env) →
  fst (dispatch env item tok w) = Ok tt.
Proof.
  intros Hok.
  destruct (Hok (requests w) (create_or_update_request item tok)) as (st1 & id1 & H1).
  destruct (Hok (requests w) (delete_request item tok)) as (st2 & id2 & H2).
  unfold_async.
  destruct (item_type item); rewrite ?H1, ?H2; simpl;
    repeat case_match; simplify_eq/=; done.
Qed.

(** The [try] block without a token: the item is marked and the guard throws. *)
Lemma try_sync_no_token env item w :
  falsy (slot_token (store w)) = true →
  try_sync env item w =
  (Throw (JsError "No authentication token available"),
   {| store := snd (updateOutboxItem (item_id item) (mark Syncing None) (store w));
      requests := requests w |}).
Proof.
  intros Hf. unfold try_sync, bind, onStore, throw, getToken.
  destruct (updateOutboxItem _ _ _) as [o s1] eqn:Hu. simpl.
  pose proof (updateOutboxItem_store (item_id item) (mark Syncing None) (store w))
    as (_ & Ht & _). rewrite Hu in Ht. simpl in Ht. by rewrite Ht, Hf.
Qed.

(** The [try] block with a token: dispatch, then removal on success. *)
Lemma try_sync_token env item w tok :
  slot_token (store w) = Some tok → tok ≠ "" →
  try_sync env item w =
  match dispatch env item tok
          {| store := snd (updateOutboxItem (item_id item) (mark Syncing None)
                             (store w));
             requests := requests w |} with
  | (Ok _, w2) =>
      (Ok tt, {| store := snd (removeFromOutbox (item_id item) (store w2));
                 requests := requests w2 |})
  | (Throw e, w2) => (Throw e, w2)
  end.
Proof.
  intros Htok Hne. unfold try_sync, bind, onStore, throw, ret, getToken.
  destruct (updateOutboxItem _ _ _) as [o s1] eqn:Hu. simpl.
  pose proof (updateOutboxItem_store (item_id item) (mark Syncing None) (store w))
    as (_ & Ht & _). rewrite Hu in Ht. simpl in Ht. rewrite Ht, Htok. simpl.
  rewrite bool_decide_eq_false_2 by done.
  destruct (dispatch _ _ _ _) as [[[]|e] w2]; done.
Qed.

Lemma try_sync_succeeds env item w tok :
  slot_token (store w) = Some tok → tok ≠ "" →
  always_succeeds (api env) →
  fst (try_sync env item w) = Ok tt.
Proof.
  intros Htok Hne Hok. rewrite (try_sync_token _ _ _ tok) by done.
  pose proof (dispatch_succeeds env item tok
    {| store := snd (updateOutboxItem (item_id item) (mark Syncing None) (store w));
       requests := requests w |} Hok) as Hd.
  by destruct (dispatch _ _ _ _) as [[[]|ex] w2].
Qed.

(** A rejected [fetch] makes the [try] block throw the rejection. *)
Lemma try_sync_rejected env item w tok e :
  slot_token (store w) = Some tok → tok ≠ "" →
  api env (requests w) (request_of item tok) = Rejects e →
  fst (try_sync env item w) = Throw e.
Proof.
  intros Htok Hne Hrej. rewrite (try_sync_token _ _ _ tok) by done.
  unfold request_of in Hrej. unfold dispatch, fetch, bind.
  destruct (item_type item); simpl; by rewrite Hrej.
Qed.

(** A non-success answer to a create or update makes it throw as well. *)
Lemma try_sync_refused env item w tok r :
  slot_token (store w) = Some tok → tok ≠ "" →
  item_type item ≠ Delete →
  api env (requests w) (request_of item tok) = Resolves r →
  resp_ok r = false →
  fst (try_sync env item w) =
    Throw (JsError ("Server returned " +:+ pretty (resp_status r))).
Proof.
  intros Htok Hne Hty Hres Hok. rewrite (try_sync_token _ _ _ tok) by done.
  unfold request_of in Hres. unfold dispatch, fetch, throw, bind.
  destruct (item_type item); simpl; [ | |done]; by rewrite Hres, Hok.
Qed.

(** Every exception of the [try] block has a message, if the API's have. *)
Lemma try_sync_message env item w ex :
  errors_carry_messages (api env) →
  fst (try_sync env item w) = Throw ex →
  error_message ex ≠ "".
Proof.
  intros Hsp. destruct (falsy (slot_token (store w))) eqn:Hf.
  - rewrite try_sync_no_token by done. by intros [= <-].
  - apply falsy_false in Hf as (tok & Htok & Hne).
    rewrite (try_sync_token _ _ _ tok) by done.
    set (w0 := {| store := _; requests := requests w |}).
    pose proof (Hsp (requests w0) (create_or_update_request item tok)) as H1.
    pose proof (Hsp (requests w0) (delete_request item tok)) as H2.
    unfold_async.
    repeat case_match; simplify_eq/=; try done; intros; simplify_eq/=;
      try done; congruence.
Qed.

Lemma sync_item_no_token env item s e w :
  falsy (slot_token (store w)) = true →
  sync_item env item (s, e) w =
  ((s, S e),
   {| store := snd (updateOutboxItem (item_id item)
                      (mark Error (Some (error_message no_token)))
                      (snd (updateOutboxItem (item_id item) (mark Syncing None)
                              (store w))));
      requests := requests w |}).
Proof.
  intros Hf. unfold sync_item. rewrite try_sync_no_token by done.
  unfold onStore. simpl. by destruct (updateOutboxItem _ _ _).
Qed.

Lemma sync_item_token env item s e w tok :
  slot_token (store w) = Some tok → tok ≠ "" →
  sync_item env item (s, e) w =
  match dispatch env item tok
          {| store := snd (updateOutboxItem (item_id item) (mark Syncing None)
                             (store w));
             requests := requests w |} with
  | (Ok _, w2) =>
      ((S s, e),
       {| store := snd (removeFromOutbox (item_id item) (store w2));
          requests := requests w2 |})
  | (Throw ex, w2) =>
      ((s, S e),
       {| store := snd (updateOutboxItem (item_id item)
                          (mark Error (Some (error_message ex))) (store w2));
          requests := requests w2 |})
  end.
Proof.
  intros Htok Hne. unfold sync_item. rewrite (try_sync_token _ _ _ tok) by done.
  destruct (dispatch _ _ _ _) as [[[]|ex] w2]; [done|].
  unfold onStore. by destruct (updateOutboxItem _ _ _).
Qed.

(** The two outcomes of one iteration. *)
Lemma sync_item_cases env item s e w c' w' :
  sync_item env item (s, e) w = (c', w') →
  slot_user (store w') = slot_user (store w) ∧
  slot_token (store w') = slot_token (store w) ∧
  ((c' = (S s, e) ∧ fst (try_sync env item w) = Ok tt ∧
    outbox_of w' =
      removed (item_id item)
        (updated (item_id item) (mark Syncing None) (outbox_of w)))
   ∨ (∃ ex, c' = (s, S e) ∧ fst (try_sync env item w) = Throw ex ∧
        outbox_of w' =
          updated (item_id item) (mark Error (Some (error_message ex)))
            (updated (item_id item) (mark Syncing None) (outbox_of w)))).
Proof.
  unfold sync_item, outbox_of.
  pose proof (updateOutboxItem_store (item_id item) (mark Syncing None) (store w))
    as (Hu1 & Ht1 & _ & Ho1).
  destruct (falsy (slot_token (store w))) eqn:Hf.
  - rewrite try_sync_no_token by done. unfold onStore. simpl.
    set (s1 := snd (updateOutboxItem _ _ (store w))) in *.
    pose proof (updateOutboxItem_store (item_id item)
      (mark Error (Some "No authentication token available")) s1)
      as (Hu2 & Ht2 & _ & Ho2).
    destruct (updateOutboxItem _ _ s1) as [o s2]. simpl in *.
    intros [= <- <-]. simpl. split_and!; [congruence..| ].
    right. eexists. split_and!; [done..| ]. simpl. congruence.
  - apply falsy_false in Hf as (tok & Htok & Hne).
    rewrite (try_sync_token _ _ _ tok) by done.
    set (s1 := snd (updateOutboxItem _ _ (store w))) in *.
    destruct (dispatch _ _ _ _) as [[[]|ex] w2] eqn:Hd;
      apply dispatch_frame in Hd as (Hu2 & Ht2 & Ho2 & _); simpl in *.
    + intros [= <- <-]. simpl. split_and!; [congruence..| ].
      left. split_and!; [done..| ]. unfold getOutbox in *. simpl in *.
      rewrite Ho2. by rewrite Ho1.
    + unfold onStore.
      pose proof (updateOutboxItem_store (item_id item)
        (mark Error (Some (error_message ex))) (store w2))
        as (Hu3 & Ht3 & _ & Ho3).
      destruct (updateOutboxItem _ _ (store w2)) as [o s3]. simpl in *.
      intros [= <- <-]. simpl. split_and!; [congruence..| ].
      right. exists ex. split_and!; [done..| ].
      rewrite Ho3. unfold getOutbox in *. simpl in *. rewrite Ho2. by rewrite Ho1.
Qed.

(** The counters are accumulators: an iteration adds to them. *)
Lemma sync_item_counts env item s e w :
  sync_item env item (s, e) w =
  let '((ds, de), w') := sync_item env item (0, 0)%nat w in
  ((s + ds, e + de)%nat, w').
Proof.
  unfold sync_item. destruct (try_sync env item w) as [[[]|ex] w1].
  - f_equal. f_equal; lia.
  - destruct (onStore _ _) as [o w2]. f_equal. f_equal; lia.
Qed.

(** An iteration leaves the items with other identifiers as they are. *)
Lemma sync_item_frame (P : OutboxItem → Prop) `{!∀ x, Decision (P x)}
    env item c w c' w' :
  (∀ x, P x → item_id x ≠ item_id item) →
  sync_item env item c w = (c', w') →
  filter P (outbox_of w') = filter P (outbox_of w).
Proof.
  intros HP Hx. destruct c as [s e].
  apply sync_item_cases in Hx as (_ & _ & [(_ & _ & ->)|(ex & _ & _ & ->)]).
  - rewrite removed_frame by done. by apply updated_frame.
  - rewrite updated_frame by done. by apply updated_frame.
Qed.

(** An iteration never adds an item. *)
Lemma sync_item_ids env item c w c' w' :
  sync_item env item c w = (c', w') →
  item_id <$> outbox_of w' `sublist_of` item_id <$> outbox_of w.
Proof.
  intros Hx. destruct c as [s e].
  apply sync_item_cases in Hx as (_ & _ & [(_ & _ & ->)|(ex & _ & _ & ->)]).
  - rewrite removed_ids, updated_ids. apply sublist_filter.
  - by rewrite !updated_ids.
Qed.

Lemma sync_item_recipes env item c w c' w' :
  sync_item env item c w = (c', w') →
  recipes_of w' = recipes_of w ∨
  (item_type item = Create ∧
   ∃ resp rid k found log tok,
     api env log (create_or_update_request item tok) = Resolves resp ∧
     resp_json resp = BodyValue rid ∧
     list_find (λ c, recipe_id c = recipe_id (item_data item)) (recipes_of w)
       = Some (k, found) ∧
     recipes_of w' = <[k := with_id found rid]> (recipes_of w)).
Proof.
  destruct c as [s e].
  destruct (falsy (slot_token (store w))) eqn:Hf.
  - rewrite sync_item_no_token by done. intros [= <- <-]. left.
    apply recipes_of_slot. simpl.
    rewrite (proj1 (proj2 (proj2 (updateOutboxItem_store _ _ _)))).
    by rewrite (proj1 (proj2 (proj2 (updateOutboxItem_store _ _ _)))).
  - apply falsy_false in Hf as (tok & Htok & Hne).
    rewrite (sync_item_token _ _ _ _ _ tok) by done.
    set (w0 := {| store := _; requests := requests w |}).
    assert (recipes_of w0 = recipes_of w) as Hw0.
    { apply recipes_of_slot. simpl.
      by rewrite (proj1 (proj2 (proj2 (updateOutboxItem_store _ _ _)))). }
    destruct (dispatch _ _ _ _) as [[[]|ex] w2] eqn:Hd;
      apply dispatch_recipes in Hd; rewrite Hw0 in Hd;
      cbv iota beta; intros [= <- <-].
    + set (w3 := {| store := _; requests := requests w2 |}).
      assert (recipes_of w3 = recipes_of w2) as -> by (by apply recipes_of_slot).
      destruct Hd as [Hd|(Hty & resp & rid & k & found & ? & ? & ? & Hd)].
      * by left.
      * right. split; [done|]. by exists resp, rid, k, found, (requests w), tok.
    + set (w3 := {| store := _; requests := requests w2 |}).
      assert (recipes_of w3 = recipes_of w2) as ->.
      { apply recipes_of_slot. unfold w3. cbn [store].
        by rewrite (proj1 (proj2 (proj2 (updateOutboxItem_store _ _ _)))). }
      destruct Hd as [Hd|(Hty & resp & rid & k & found & ? & ? & ? & Hd)].
      * by left.
      * right. split; [done|]. by exists resp, rid, k, found, (requests w), tok.
Qed.

(** ** The loop *)

Lemma sync_items_app env l1 l2 c w :
  sync_items env (l1 ++ l2) c w =
  let '(c1, w1) := sync_items env l1 c w in sync_items env l2 c1 w1.
Proof.
  revert c w. induction l1 as [|x l1 IH]; intros c w; simpl; [done|].
  destruct (sync_item env x c w) as [c1 w1]. apply IH.
Qed.

Lemma sync_items_counts env items s e w :
  sync_items env items (s, e) w =
  let '((ds, de), w') := sync_items env items (0, 0)%nat w in
  ((s + ds, e + de)%nat, w').
Proof.
  revert s e w. induction items as [|x l IH]; intros s e w; cbn [sync_items].
  - f_equal. f_equal; lia.
  - rewrite sync_item_counts.
    destruct (sync_item env x (0, 0)%nat w) as [[ds de] w1].
    rewrite IH. rewrite (IH ds de).
    destruct (sync_items env l (0, 0)%nat w1) as [[ds' de'] w2].
    f_equal. f_equal; lia.
Qed.

(** Every item of the loop is counted once, as synced or as an error. *)
Lemma sync_items_total env items s e w s' e' w' :
  sync_items env items (s, e) w = ((s', e'), w') →
  (s' + e' = s + e + length items)%nat.
Proof.
  revert s e w. induction items as [|x l IH]; intros s e w; simpl.
  - intros [= <- <- <-]. lia.
  - destruct (sync_item env x (s, e) w) as [[s1 e1] w1] eqn:Hx.
    intros Hl%IH. apply sync_item_cases in Hx as (_ & _ & [(Hc & _)|(ex & Hc & _)]);
      simplify_eq; lia.
Qed.

Lemma sync_items_slots env items c w c' w' :
  sync_items env items c w = (c', w') →
  slot_user (store w') = slot_user (store w) ∧
  slot_token (store w') = slot_token (store w).
Proof.
  revert c w. induction items as [|x l IH]; intros [s e] w; simpl.
  - by intros [= <- <-].
  - destruct (sync_item env x (s, e) w) as [[s1 e1] w1] eqn:Hx.
    intros (Hu & Ht)%IH. apply sync_item_cases in Hx as (Hu1 & Ht1 & _).
    split; congruence.
Qed.

Lemma sync_items_frame (P : OutboxItem → Prop) `{!∀ x, Decision (P x)}
    env items c w c' w' :
  (∀ x, P x → item_id x ∉ item_id <$> items) →
  sync_items env items c w = (c', w') →
  filter P (outbox_of w') = filter P (outbox_of w).
Proof.
  revert c w. induction items as [|y l IH]; intros c w HP; simpl.
  - by intros [= <- <-].
  - destruct (sync_item env y c w) as [c1 w1] eqn:Hy. intros Hl.
    rewrite (IH c1 w1); [ | |done].
    + eapply sync_item_frame; [ |done]. intros x Hx Heq. apply (HP x Hx).
      rewrite Heq, fmap_cons. left.
    + intros x Hx Hin. apply (HP x Hx). rewrite fmap_cons. by right.
Qed.

Lemma sync_items_ids env items c w c' w' :
  sync_items env items c w = (c', w') →
  item_id <$> outbox_of w' `sublist_of` item_id <$> outbox_of w.
Proof.
  revert c w. induction items as [|y l IH]; intros c w; simpl.
  - by intros [= <- <-].
  - destruct (sync_item env y c w) as [c1 w1] eqn:Hy. intros Hl%IH.
    etrans; [done|]. by eapply sync_item_ids.
Qed.

(** With a token and an API that always succeeds every item is synced and
    removed. *)
Lemma all_succeed_loop env items s e w tok s' e' w' :
  slot_token (store w) = Some tok → tok ≠ "" →
  always_succeeds (api env) →
  sync_items env items (s, e) w = ((s', e'), w') →
  s' = (s + length items)%nat ∧ e' = e ∧
  ∀ x, x ∈ outbox_of w' → item_id x ∉ item_id <$> items.
Proof.
  intros Htok Hne Hok. revert s e w Htok.
  induction items as [|y l IH]; intros s e w Htok; simpl.
  - intros [= <- <- <-]. split_and!; [lia|done| ].
    intros x _ Hin. by apply elem_of_nil in Hin.
  - destruct (sync_item env y (s, e) w) as [[s1 e1] w1] eqn:Hy. intros Hl.
    apply sync_item_cases in Hy as (_ & Ht1 & [(Hc & _ & Ho)|(ex & _ & Hthrow & _)]);
      [ | by rewrite (try_sync_succeeds _ _ _ tok) in Hthrow ].
    injection Hc as -> ->.
    pose proof Hl as Hids%sync_items_ids.
    apply IH in Hl as (-> & -> & Hrest); [ | congruence].
    split_and!; [lia|done| ].
    intros x Hx [Heq|Hin]%elem_of_cons; [ |by apply (Hrest x)].
    revert x Hx Heq. eapply ids_absent_sublist; [done|].
    rewrite Ho. intros x. apply removed_no_id.
Qed.

(** Without a token every item is counted as an error and, identifiers being
    distinct, marked. *)
Lemma no_token_loop env items s e w s' e' w' :
  falsy (slot_token (store w)) = true →
  NoDup (item_id <$> outbox_of w) →
  sync_items env items (s, e) w = ((s', e'), w') →
  s' = s ∧ e' = (e + length items)%nat ∧ requests w' = requests w ∧
  outbox_of w' =
    (λ x, if decide (item_id x ∈ item_id <$> items)
          then failed x no_token else x) <$> outbox_of w.
Proof.
  revert s e w. induction items as [|y l IH]; intros s e w Hf Hnd; cbn [sync_items].
  - intros [= <- <- <-]. split_and!; [done|simpl; lia|done| ].
    rewrite <- (list_fmap_id (outbox_of w)) at 1. apply list_fmap_ext.
    intros i x _. rewrite decide_False; [done|]. apply not_elem_of_nil.
  - rewrite sync_item_no_token by done.
    set (w1 := {| store := _; requests := requests w |}).
    assert (outbox_of w1 =
            (λ x, if decide (item_id x = item_id y)
                  then failed x no_token else x) <$> outbox_of w) as Hw1.
    { unfold w1, outbox_of. cbn [store].
      rewrite (proj2 (proj2 (proj2 (updateOutboxItem_store _ _ _)))).
      rewrite (proj2 (proj2 (proj2 (updateOutboxItem_store _ _ _)))).
      rewrite (updated_NoDup _ _ _ (updated _ _ _)) by (by rewrite updated_ids).
      rewrite updated_NoDup by done. rewrite <- list_fmap_compose.
      apply list_fmap_ext. intros i x _. simpl.
      destruct (decide (item_id x = item_id y)) as [Heq|Hne]; simpl.
      - by rewrite decide_True.
      - by rewrite decide_False. }
    intros Hl. apply IH in Hl as (-> & -> & -> & ->).
    + split_and!; [done|simpl; lia|done| ].
      rewrite Hw1, <- list_fmap_compose. apply list_fmap_ext. intros i x _.
      unfold compose. cbn beta.
      destruct (decide (item_id x = item_id y)) as [Heq|Hne].
      * rewrite (decide_True (P := item_id x ∈ item_id <$> y :: l))
          by (rewrite Heq, fmap_cons; left).
        by destruct (decide (_ ∈ item_id <$> l)).
      * destruct (decide (item_id x ∈ item_id <$> l)) as [Hin|Hout].
        -- rewrite decide_True by (rewrite fmap_cons; by right). done.
        -- rewrite decide_False; [done|].
           rewrite fmap_cons. by intros [?|?]%elem_of_cons.
    + simpl. by rewrite !(proj1 (proj2 (updateOutboxItem_store _ _ _))).
    + rewrite Hw1, <- list_fmap_compose.
      erewrite list_fmap_ext; [exact Hnd|]. intros i x _. simpl.
      by destruct (decide (item_id x = item_id y)).
Qed.



(** ** A whole pass *)

(** Online, [processOutbox] is the loop over the pending items. *)
Lemma processOutbox_online env w :
  onLine env = true →
  processOutbox env w =
  ({| synced := fst (pass_counts env (pendingItems (store w)) w);
      errors := snd (pass_counts env (pendingItems (store w)) w) |},
   pass_world env (pendingItems (store w)) w).
Proof.
  intros Hon. unfold processOutbox, pass_counts, pass_world. rewrite Hon. simpl.
  by destruct (sync_items _ _ _ _) as [c w'].
Qed.

(** The loop over a concatenation, with its counters. *)
Lemma pass_app env l1 l2 w :
  pass_world env (l1 ++ l2) w = pass_world env l2 (pass_world env l1 w) ∧
  fst (pass_counts env (l1 ++ l2) w) =
    (fst (pass_counts env l1 w) + fst (pass_counts env l2 (pass_world env l1 w)))%nat ∧
  snd (pass_counts env (l1 ++ l2) w) =
    (snd (pass_counts env l1 w) + snd (pass_counts env l2 (pass_world env l1 w)))%nat.
Proof.
  unfold pass_world, pass_counts. rewrite sync_items_app.
  destruct (sync_items env l1 _ w) as [[s1 e1] w1]. simpl.
  rewrite sync_items_counts.
  by destruct (sync_items env l2 _ w1) as [[s2 e2] w2].
Qed.

Lemma pass_single env item w :
  sync_item env item (0, 0)%nat w = (pass_counts env [item] w, pass_world env [item] w).
Proof.
  unfold pass_counts, pass_world. simpl.
  by destruct (sync_item _ _ _ _) as [c w'].
Qed.

Lemma pass_world_slots env items w :
  slot_user (store (pass_world env items w)) = slot_user (store w) ∧
  slot_token (store (pass_world env items w)) = slot_token (store w).
Proof.
  unfold pass_world. destruct (sync_items _ _ _ _) as [c w'] eqn:Hrun.
  by apply sync_items_slots in Hrun.
Qed.

Lemma pass_world_frame (P : OutboxItem → Prop) `{!∀ x, Decision (P x)}
    env items w :
  (∀ x, P x → item_id x ∉ item_id <$> items) →
  filter P (outbox_of (pass_world env items w)) = filter P (outbox_of w).
Proof.
  intros HP. unfold pass_world. destruct (sync_items _ _ _ _) as [c w'] eqn:Hrun.
  by eapply sync_items_frame.
Qed.

Lemma pass_world_ids env items w :
  item_id <$> outbox_of (pass_world env items w) `sublist_of`
  item_id <$> outbox_of w.
Proof.
  unfold pass_world. destruct (sync_items _ _ _ _) as [c w'] eqn:Hrun.
  by eapply sync_items_ids.
Qed.

Lemma pending_ids_NoDup w :
  NoDup (item_id <$> outbox_of w) → NoDup (item_id <$> pendingItems (store w)).
Proof.
  intros Hnd. eapply sublist_NoDup; [exact Hnd| ].
  apply fmap_sublist. unfold pendingItems. apply sublist_filter.
Qed.

(** * The claims about a sync pass *)

(** C6: when the connectivity indicator reports offline at the start of
    [processOutbox], the call returns [{synced: 0, errors: 0}] and changes
    nothing: the world, and with it every outbox item and its status, is as
    before. *)
Theorem offline_pass_changes_nothing env w :
  onLine env = false →
  fst (processOutbox env w) = {| synced := 0; errors := 0 |} ∧
  snd (processOutbox env w) = w ∧
  outbox_of (snd (processOutbox env w)) = outbox_of w.
Proof. intros Hoff. unfold processOutbox. by rewrite Hoff. Qed.

Lemma offline_pass_changes_nothing_witness :
  onLine (offline api_down) = false ∧
  fst (processOutbox (offline api_down) w_pie) = {| synced := 0; errors := 0 |} ∧
  snd (processOutbox (offline api_down) w_pie) = w_pie ∧
  outbox_of (snd (processOutbox (offline api_down) w_pie)) = outbox_of w_pie.
Proof.
  split; [reflexivity|].
  apply (offline_pass_changes_nothing (offline api_down) w_pie). reflexivity.
Defined.

(** C7: on an outbox with no item of status [pending], [processOutbox]
    returns [{synced: 0, errors: 0}] and issues no network call: the request
    log, and indeed the whole world, is unchanged. *)
Theorem nothing_pending_no_calls env w :
  (∀ x, x ∈ outbox_of w → item_status x ≠ Pending) →
  fst (processOutbox env w) = {| synced := 0; errors := 0 |} ∧
  requests (snd (processOutbox env w)) = requests w ∧
  snd (processOutbox env w) = w.
Proof.
  intros Hnone.
  assert (pendingItems (store w) = []) as Hp.
  { unfold pendingItems. apply filter_none. intros x Hx. by apply Hnone. }
  unfold processOutbox. rewrite Hp. by destruct (onLine env).
Qed.

Lemma nothing_pending_no_calls_witness :
  let env := online (api_answers (JNum 7)) in
  fst (processOutbox env w_failed) = {| synced := 0; errors := 0 |} ∧
  requests (snd (processOutbox env w_failed)) = requests w_failed ∧
  snd (processOutbox env w_failed) = w_failed.
Proof.
  apply (nothing_pending_no_calls (online (api_answers (JNum 7))) w_failed).
  apply Forall_forall. by_evaluation.
Defined.

(** C3: a pending item of kind [delete] whose HTTP call is answered with a
    failure response (the response is in fact ignored) is still removed from
    the outbox and counted as synced:
    its iteration adds one to [synced] and nothing to [errors], the totals of
    the pass are those of the items before it, this one synced item and the
    items after it, and no item with its identifier is left in the outbox. *)
Theorem failed_delete_is_removed_and_counted_synced
    env w pre item post tok r :
  onLine env = true →
  pendingItems (store w) = pre ++ item :: post →
  item_type item = Delete →
  slot_token (store w) = Some tok → tok ≠ "" →
  let w1 := pass_world env pre w in
  api env (requests w1) (delete_request item tok) = Resolves r →
  resp_ok r = false →
  let w2 := pass_world env [item] w1 in
  let result := fst (processOutbox env w) in
  let w' := snd (processOutbox env w) in
  pass_counts env [item] w1 = (1, 0)%nat ∧
  synced result =
    (fst (pass_counts env pre w) + 1 + fst (pass_counts env post w2))%nat ∧
  errors result =
    (snd (pass_counts env pre w) + snd (pass_counts env post w2))%nat ∧
  (∀ x, x ∈ outbox_of w2 → item_id x ≠ item_id item) ∧
  (∀ x, x ∈ outbox_of w' → item_id x ≠ item_id item).
Proof.
  intros Hon Hpend Hty Htok Hne w1 Hapi Hfail w2 result w'.
  subst result w'. rewrite processOutbox_online by done. simpl.
  rewrite Hpend.
  pose proof (pass_app env pre (item :: post) w) as (Hw & Hs & He).
  pose proof (pass_app env [item] post w1) as (Hw' & Hs' & He').
  fold w1 in Hw, Hs, He. simpl in Hw', Hs', He'. fold w2 in Hw', Hs', He'.
  rewrite Hw, Hs, He, Hw', Hs', He'.
  assert (sync_item env item (0, 0)%nat w1 =
          ((1, 0)%nat,
           {| store := snd (removeFromOutbox (item_id item)
                              (snd (updateOutboxItem (item_id item)
                                      (mark Syncing None) (store w1))));
              requests := requests w1 ++ [delete_request item tok] |})) as Hstep.
  { unfold sync_item. rewrite (try_sync_token _ _ _ tok);
      [ | unfold w1; by rewrite (proj2 (pass_world_slots env pre w)) | done].
    by erewrite dispatch_delete. }
  rewrite pass_single in Hstep. fold w2 in Hstep.
  injection Hstep as Hc Hw2.
  assert (∀ x, x ∈ outbox_of w2 → item_id x ≠ item_id item) as Hgone.
  { rewrite Hw2. unfold outbox_of. simpl. intros x. apply removed_no_id. }
  rewrite Hc. simpl. split_and!; [done|lia|lia|done| ].
  eapply ids_absent_sublist; [apply pass_world_ids|done].
Qed.

Lemma failed_delete_is_removed_and_counted_synced_witness :
  let env := online api_not_found in
  let item := enqueued enqueue_delete in
  let w2 := pass_world env [item] (pass_world env [] w_delete) in
  pass_counts env [item] (pass_world env [] w_delete) = (1, 0)%nat ∧
  synced (fst (processOutbox env w_delete)) =
    (fst (pass_counts env [] w_delete) + 1 + fst (pass_counts env [] w2))%nat ∧
  errors (fst (processOutbox env w_delete)) =
    (snd (pass_counts env [] w_delete) + snd (pass_counts env [] w2))%nat ∧
  (∀ x, x ∈ outbox_of w2 → item_id x ≠ item_id item) ∧
  (∀ x, x ∈ outbox_of (snd (processOutbox env w_delete)) →
        item_id x ≠ item_id item).
Proof.
  apply (failed_delete_is_removed_and_counted_synced
           (online api_not_found) w_delete [] (enqueued enqueue_delete) [] "tok"
           {| resp_ok := false; resp_status := 404; resp_json := BodyNull |});
    [reflexivity|reflexivity|reflexivity|reflexivity|discriminate
    |reflexivity|reflexivity].
Defined.

(** C2 (as stated, refuted): with no token in the store, draining one
    enqueued item against an always-succeeding API syncs nothing and leaves
    the item in the outbox. *)
Lemma drain_without_token_syncs_nothing :
  let a := api_answers (JNum 7) in
  let r := processOutbox (online a) w_logged_out in
  fst (getOutbox empty_store) = [] ∧
  always_succeeds a ∧
  w_logged_out = fresh (enqueue_all [enqueue_create] empty_store) ∧
  synced (fst r) = 0%nat ∧ errors (fst r) = 1%nat ∧
  outbox_of (snd r) = [failed (enqueued enqueue_create) no_token].
Proof.
  split_and!; try reflexivity. intros log req. by eexists _, _.
Qed.

(** C2 (amended): for every sequence of enqueue operations starting from an
    empty outbox in a store that holds a non-empty token, [processOutbox],
    run online against an API whose every call succeeds, leaves the outbox
    empty and returns a synced count equal to the number of items enqueued
    and an errors count of zero. *)
Theorem drain_with_token_empties_outbox ops s a log tok :
  fst (getOutbox s) = [] →
  slot_token s = Some tok → tok ≠ "" →
  always_succeeds a →
  let w := {| store := enqueue_all ops s; requests := log |} in
  let result := fst (processOutbox {| onLine := true; api := a |} w) in
  let w' := snd (processOutbox {| onLine := true; api := a |} w) in
  synced result = length ops ∧ errors result = 0%nat ∧ outbox_of w' = [].
Proof.
  intros Hempty Htok Hne Hok w result w'. subst result w'.
  rewrite processOutbox_online by done.
  destruct (enqueue_all_store ops s) as (_ & Htok' & _ & Hout).
  rewrite Hempty in Hout. simpl in Hout.
  assert (pendingItems (store w) = enqueued <$> ops) as Hp.
  { unfold pendingItems. simpl. rewrite Hout.
    clear. induction ops as [|op ops IH]; [done|].
    rewrite fmap_cons, filter_cons_True by done. by f_equal. }
  rewrite Hp. unfold pass_counts, pass_world.
  destruct (sync_items _ _ _ w) as [[s' e'] w'] eqn:Hrun. simpl.
  pose proof (sync_items_ids _ _ _ _ _ _ Hrun) as Hsub.
  eapply (all_succeed_loop _ _ _ _ _ tok) in Hrun as (-> & -> & Hgone);
    [ | simpl; congruence | done | done].
  rewrite length_fmap. split_and!; [done..| ].
  destruct (outbox_of w') as [|x l] eqn:Hw'; [done|]. exfalso.
  apply (Hgone x); [left| ].
  assert (outbox_of w = enqueued <$> ops) as Hw by (unfold outbox_of; by simpl).
  rewrite <- Hw. eapply elem_of_sublist; [ |exact Hsub].
  rewrite fmap_cons. left.
Qed.

Lemma drain_with_token_empties_outbox_witness :
  let w := {| store := enqueue_all [enqueue_create; enqueue_delete] logged_in;
              requests := [] |} in
  let env := {| onLine := true; api := api_answers (JNum 7) |} in
  synced (fst (processOutbox env w)) = 2%nat ∧
  errors (fst (processOutbox env w)) = 0%nat ∧
  outbox_of (snd (processOutbox env w)) = [].
Proof.
  apply (drain_with_token_empties_outbox [enqueue_create; enqueue_delete]
           logged_in (api_answers (JNum 7)) [] "tok");
    [reflexivity|reflexivity|discriminate| ].
  intros log req. by eexists _, _.
Defined.

(** C5 (as stated, refuted): two items enqueued within the same millisecond
    share their identifier; processed without a token, the first is marked
    twice and the second keeps status [pending]. *)
Lemma same_tick_item_is_not_marked :
  let r := processOutbox (online (api_answers (JNum 7))) w_same_tick in
  slot_token (store w_same_tick) = None ∧
  item_status <$> pendingItems (store w_same_tick) = [Pending; Pending] ∧
  item_id <$> outbox_of w_same_tick = ["offline_5"; "offline_5"] ∧
  errors (fst r) = 2%nat ∧
  item_status <$> outbox_of (snd r) = [Error; Pending] ∧
  item_error <$> outbox_of (snd r) = [Some (error_message no_token); None].
Proof. by vm_compute. Qed.

(** C5 (amended): in a pass over an outbox whose identifiers are pairwise
    distinct, run while the store holds no token, every pending item is
    marked [error] with the message "No authentication token available" and
    counted as an error; the pass goes through all pending items (the errors
    count is their number), syncs none, issues no request and leaves the
    other items as they are. *)
Theorem missing_token_marks_every_pending_item env w :
  onLine env = true →
  falsy (slot_token (store w)) = true →
  NoDup (item_id <$> outbox_of w) →
  let result := fst (processOutbox env w) in
  let w' := snd (processOutbox env w) in
  synced result = 0%nat ∧
  errors result = length (pendingItems (store w)) ∧
  requests w' = requests w ∧
  outbox_of w' =
    (λ x, if decide (item_status x = Pending)
          then failed x no_token else x) <$> outbox_of w.
Proof.
  intros Hon Hf Hnd result w'. subst result w'.
  rewrite processOutbox_online by done. unfold pass_counts, pass_world.
  destruct (sync_items _ _ _ w) as [[s' e'] w'] eqn:Hrun. simpl.
  apply no_token_loop in Hrun as (-> & -> & -> & ->); [ |done..].
  split_and!; [done..| ].
  apply list_fmap_ext. intros i x Hi.
  apply list_elem_of_lookup_2 in Hi.
  destruct (decide (item_status x = Pending)) as [Hp|Hp].
  - rewrite decide_True; [done|]. apply list_elem_of_fmap_2.
    unfold pendingItems. by apply list_elem_of_filter.
  - rewrite decide_False; [done|].
    intros (y & Heq & Hy)%list_elem_of_fmap.
    unfold pendingItems in Hy. apply list_elem_of_filter in Hy as [Hyp Hyin].
    assert (x = y) as -> by (by eapply NoDup_ids_eq). done.
Qed.

Lemma missing_token_marks_every_pending_item_witness :
  let env := online (api_answers (JNum 7)) in
  synced (fst (processOutbox env w_logged_out)) = 0%nat ∧
  errors (fst (processOutbox env w_logged_out)) =
    length (pendingItems (store w_logged_out)) ∧
  requests (snd (processOutbox env w_logged_out)) = requests w_logged_out ∧
  outbox_of (snd (processOutbox env w_logged_out)) =
    (λ x, if decide (item_status x = Pending)
          then failed x no_token else x) <$> outbox_of w_logged_out.
Proof.
  apply (missing_token_marks_every_pending_item
           (online (api_answers (JNum 7))) w_logged_out);
    [reflexivity|reflexivity|by_evaluation].
Defined.

(** C9 (as stated, refuted): an item of status [error] that shares its
    identifier with a pending item is marked and then removed by the pass
    that syncs the pending one. *)
Lemma error_item_removed_with_same_tick_item :
  let r := processOutbox (online (api_answers (JNum 7))) w_failed_then_same_tick in
  item_status <$> outbox_of w_failed_then_same_tick = [Error; Pending] ∧
  item_id <$> outbox_of w_failed_then_same_tick = ["offline_5"; "offline_5"] ∧
  fst r = {| synced := 1; errors := 0 |} ∧
  outbox_of (snd r) = [].
Proof. by vm_compute. Qed.

(** C9 (amended): a sync pass leaves unchanged every outbox item that is not
    pending and whose identifier no pending item shares (as is the case when
    identifiers are pairwise distinct): the item is not among the items the
    pass works on, and the items stored under its identifier are the same,
    itself included, after the pass. *)
Theorem items_outside_pending_ids_untouched env w x :
  x ∈ outbox_of w →
  item_status x ≠ Pending →
  (∀ y, y ∈ pendingItems (store w) → item_id y ≠ item_id x) →
  let w' := snd (processOutbox env w) in
  (x ∉ pendingItems (store w)) ∧
  filter (λ y, item_id y = item_id x) (outbox_of w') =
    filter (λ y, item_id y = item_id x) (outbox_of w) ∧
  x ∈ outbox_of w'.
Proof.
  intros Hx Hst Hids w'.
  assert (filter (λ y, item_id y = item_id x) (outbox_of w') =
          filter (λ y, item_id y = item_id x) (outbox_of w)) as Hframe.
  { subst w'. destruct (onLine env) eqn:Hon.
    - rewrite processOutbox_online by done. simpl.
      apply pass_world_frame. intros y Hy Hin.
      apply list_elem_of_fmap in Hin as (p & Hp & Hpin).
      apply (Hids p Hpin). congruence.
    - unfold processOutbox. by rewrite Hon. }
  split_and!; [ |done| ].
  - intros Hin. by apply (Hids x).
  - assert (x ∈ filter (λ y, item_id y = item_id x) (outbox_of w')) as Hin.
    { rewrite Hframe. by apply list_elem_of_filter. }
    by apply list_elem_of_filter in Hin as [_ ?].
Qed.

Lemma items_outside_pending_ids_untouched_witness :
  let env := online (api_answers (JNum 7)) in
  let x := failed (enqueued enqueue_create) (JsError "Failed to fetch") in
  let w' := snd (processOutbox env w_failed_then_delete) in
  (x ∉ pendingItems (store w_failed_then_delete)) ∧
  filter (λ y, item_id y = item_id x) (outbox_of w') =
    filter (λ y, item_id y = item_id x) (outbox_of w_failed_then_delete) ∧
  x ∈ outbox_of w'.
Proof.
  apply (items_outside_pending_ids_untouched
           (online (api_answers (JNum 7))) w_failed_then_delete
           (failed (enqueued enqueue_create) (JsError "Failed to fetch")));
    [by_evaluation|discriminate| ].
  apply Forall_forall. by_evaluation.
Defined.

(** C1 (as stated, refuted): an item whose API call failed is left with
    status [error], and the next pass, which works on pending items only,
    does not attempt it again: no request is issued and nothing is synced,
    although the server now answers. *)
Lemma failed_item_is_not_retried :
  let first := processOutbox (online api_down) w_pie in
  let second := processOutbox (online (api_answers (JNum 7))) (snd first) in
  fst first = {| synced := 0; errors := 1 |} ∧
  outbox_of (snd first) =
    [failed (enqueued enqueue_create) (JsError "Failed to fetch")] ∧
  pendingItems (store (snd first)) = [] ∧
  fst second = {| synced := 0; errors := 0 |} ∧
  requests (snd second) = requests (snd first) ∧
  outbox_of (snd second) = outbox_of (snd first).
Proof. by vm_compute. Qed.

(** C1 (amended): in an online pass over an outbox whose identifiers are
    pairwise distinct, a pending item whose sync attempt throws stays in the
    outbox with status [error] and the message of the thrown error (non-empty
    whenever the errors raised by the API carry non-empty messages); it is
    not among the pending items of the next pass, which therefore does not
    attempt it and leaves it as it is. *)
Theorem failed_item_kept_as_error_and_skipped env env2 w pre item post ex :
  onLine env = true →
  NoDup (item_id <$> outbox_of w) →
  pendingItems (store w) = pre ++ item :: post →
  fst (try_sync env item (pass_world env pre w)) = Throw ex →
  let w' := snd (processOutbox env w) in
  let w'' := snd (processOutbox env2 w') in
  filter (λ y, item_id y = item_id item) (outbox_of w') = [failed item ex] ∧
  item_status (failed item ex) = Error ∧
  item_error (failed item ex) = Some (error_message ex) ∧
  (errors_carry_messages (api env) → error_message ex ≠ "") ∧
  (∀ y, y ∈ pendingItems (store w') → item_id y ≠ item_id item) ∧
  filter (λ y, item_id y = item_id item) (outbox_of w'') = [failed item ex].
Proof.
  intros Hon Hnd Hpend Hthrow w' w''.
  pose proof (pending_ids_NoDup w Hnd) as Hpnd.
  rewrite Hpend, fmap_app, fmap_cons in Hpnd.
  apply NoDup_app in Hpnd as (_ & Hpre & [Hpost _]%NoDup_cons).
  assert (item ∈ outbox_of w) as Hin.
  { apply (pending_in_outbox (store w)). rewrite Hpend.
    apply elem_of_app. right. left. }
  set (w1 := pass_world env pre w) in *.
  set (w2 := pass_world env [item] w1).
  assert (w' = pass_world env post w2) as Hw'.
  { subst w'. rewrite processOutbox_online by done. simpl. rewrite Hpend.
    rewrite (proj1 (pass_app env pre (item :: post) w)).
    apply (proj1 (pass_app env [item] post w1)). }
  assert (filter (λ y, item_id y = item_id item) (outbox_of w1) = [item]) as H1.
  { unfold w1. rewrite pass_world_frame; [by apply filter_own_id|].
    intros y Hy Hyin. apply (Hpre (item_id y) Hyin). rewrite Hy. left. }
  assert (NoDup (item_id <$> outbox_of w1)) as Hnd1.
  { eapply sublist_NoDup; [exact Hnd|apply pass_world_ids]. }
  assert (filter (λ y, item_id y = item_id item) (outbox_of w2) =
          [failed item ex]) as H2.
  { pose proof (pass_single env item w1) as Hstep. fold w2 in Hstep.
    apply sync_item_cases in Hstep
      as (_ & _ & [(_ & Hok & _)|(ex' & _ & Hex & ->)]); [congruence|].
    assert (ex' = ex) as -> by congruence.
    rewrite (updated_own _ _ _ _ (merge item (mark Syncing None)));
      [done|by rewrite updated_ids|by apply updated_own]. }
  assert (filter (λ y, item_id y = item_id item) (outbox_of w') =
          [failed item ex]) as H'.
  { rewrite Hw', pass_world_frame; [done|].
    intros y Hy Hyin. apply Hpost. by rewrite <- Hy. }
  assert (∀ y, y ∈ pendingItems (store w') → item_id y ≠ item_id item) as Hskip.
  { intros y [Hst Hy]%pending_in_outbox Hid.
    assert (y ∈ filter (λ y, item_id y = item_id item) (outbox_of w')) as Hyf
      by (by apply list_elem_of_filter).
    rewrite H' in Hyf. apply list_elem_of_singleton in Hyf as ->. done. }
  split_and!; [done|done|done|intros; by eapply try_sync_message|done| ].
  subst w''. destruct (onLine env2) eqn:Hon2.
  - rewrite processOutbox_online by done. simpl.
    rewrite pass_world_frame; [done|].
    intros y Hy (p & Hp & Hpin)%list_elem_of_fmap.
    apply (Hskip p Hpin). congruence.
  - unfold processOutbox. by rewrite Hon2.
Qed.

Lemma failed_item_kept_as_error_and_skipped_witness :
  let env := online api_down in
  let env2 := online (api_answers (JNum 7)) in
  let item := enqueued enqueue_create in
  let ex := JsError "Failed to fetch" in
  let w' := snd (processOutbox env w_pie) in
  let w'' := snd (processOutbox env2 w') in
  filter (λ y, item_id y = item_id item) (outbox_of w') = [failed item ex] ∧
  item_status (failed item ex) = Error ∧
  item_error (failed item ex) = Some (error_message ex) ∧
  (errors_carry_messages (api env) → error_message ex ≠ "") ∧
  (∀ y, y ∈ pendingItems (store w') → item_id y ≠ item_id item) ∧
  filter (λ y, item_id y = item_id item) (outbox_of w'') = [failed item ex].
Proof.
  apply (failed_item_kept_as_error_and_skipped
           (online api_down) (online (api_answers (JNum 7))) w_pie
           [] (enqueued enqueue_create) [] (JsError "Failed to fetch"));
    [reflexivity|by_evaluation|reflexivity|reflexivity].
Defined.




(** * Further properties *)

(** ** Lists *)

Section find_facts.
Context {A : Type} (P : A → Prop) `{!∀ x, Decision (P x)}.

(** A filter that every element passes keeps the list. *)
Lemma filter_all (l : list A) :
  (∀ x, x ∈ l → P x) → filter P l = l.
Proof.
  induction l as [|a l IH]; intros Hl; [done|].
  rewrite filter_cons_True by (apply Hl; left).
  f_equal. apply IH. intros x Hx. apply Hl. by right.
Qed.

(** Replacing the first match by another match keeps it the first match. *)
Lemma list_find_insert_match (l : list A) k x y :
  list_find P l = Some (k, x) → P y →
  list_find P (<[k := y]> l) = Some (k, y).
Proof.
  intros (Hk & Hx & Hmin)%list_find_Some Hy. apply list_find_Some.
  split_and!; [ |done| ].
  - apply list_lookup_insert_eq. by eapply lookup_lt_Some.
  - intros j z Hj Hlt. rewrite list_lookup_insert_ne in Hj by lia. by eapply Hmin.
Qed.

(** Replacing an element that does not match by another one that does not. *)
Lemma list_find_insert_outside (l : list A) k x y :
  l !! k = Some x → ¬ P x → ¬ P y →
  list_find P (<[k := y]> l) = list_find P l.
Proof.
  revert k. induction l as [|a l IH]; intros [|k] Hk Hx Hy; simplify_eq/=.
  - by rewrite !decide_False by done.
  - by rewrite (IH k).
Qed.

(** Appending a match to a list without one. *)
Lemma list_find_snoc_match (l : list A) y :
  list_find P l = None → P y → list_find P (l ++ [y]) = Some (length l, y).
Proof.
  intros Hnone Hy. rewrite list_find_app_r by done. simpl.
  rewrite decide_True by done. done.
Qed.

(** Appending an element that does not match. *)
Lemma list_find_snoc_outside (l : list A) y :
  ¬ P y → list_find P (l ++ [y]) = list_find P l.
Proof.
  intros Hy. induction l as [|a l IH]; simpl.
  - by rewrite decide_False.
  - by rewrite IH.
Qed.

(** What a filter keeps of the first match, when it keeps all matches. *)
Lemma list_find_filter_implied (Q : A → Prop) {HQ : ∀ x, Decision (Q x)}
    (l : list A) :
  (∀ x, P x → Q x) →
  snd <$> list_find P (filter Q l) = snd <$> list_find P l.
Proof.
  intros HPQ. induction l as [|a l IH]; [done|].
  destruct (decide (P a)) as [Ha|Ha].
  - rewrite filter_cons_True by auto. simpl. by rewrite !decide_True.
  - destruct (decide (Q a)).
    + rewrite filter_cons_True by done. simpl. rewrite !decide_False by done.
      rewrite <- !option_fmap_compose. 
      destruct (list_find P (filter Q l)) as [[i x]| ],
        (list_find P l) as [[j y]| ]; simplify_eq/=; done.
    + rewrite filter_cons_False by done. simpl. rewrite decide_False by done.
      rewrite IH. rewrite <- option_fmap_compose.
      by destruct (list_find P l) as [[j y]| ].
Qed.
End find_facts.

(** ** The recipe cache *)

Lemma saveRecipe_recipes recipe s :
  fst (getRecipes (snd (saveRecipe recipe s))) =
  match list_find (λ r, recipe_id r = recipe_id recipe) (fst (getRecipes s)) with
  | Some (k, _) => <[k := recipe]> (fst (getRecipes s))
  | None => fst (getRecipes s) ++ [recipe]
  end.
Proof.
  unfold saveRecipe, findIndex. simpl.
  by destruct (list_find _ _) as [[k x]| ].
Qed.

Lemma getRecipe_find id s :
  fst (getRecipe id s) =
  snd <$> list_find (λ recipe, recipe_id recipe = id) (fst (getRecipes s)).
Proof. done. Qed.

Lemma saveRecipe_lookup recipe s id :
  let s' := snd (saveRecipe recipe s) in
  fst (getRecipe (recipe_id recipe) s') = Some recipe ∧
  (id ≠ recipe_id recipe → fst (getRecipe id s') = fst (getRecipe id s)).
Proof.
  intros s'. subst s'. rewrite !getRecipe_find, saveRecipe_recipes.
  destruct (list_find _ (fst (getRecipes s))) as [[k x]| ] eqn:Hf.
  - split.
    + by erewrite list_find_insert_match.
    + intros Hne. pose proof Hf as (Hk & Hx & _)%list_find_Some.
      erewrite list_find_insert_outside; [done|done| | ]; simpl; congruence.
  - split.
    + by rewrite list_find_snoc_match.
    + intros Hne. rewrite list_find_snoc_outside; [done|]. simpl. congruence.
Qed.

(** X1: what is saved is what is read back under that identifier, and the
    recipes under other identifiers read as before. *)
Theorem saveRecipe_getRecipe recipe s id :
  let s' := snd (saveRecipe recipe s) in
  fst (getRecipe (recipe_id recipe) s') = Some recipe ∧
  (id ≠ recipe_id recipe → fst (getRecipe id s') = fst (getRecipe id s)).
Proof. apply saveRecipe_lookup. Qed.

Lemma saveRecipe_getRecipe_witness :
  let s' := snd (saveRecipe pie logged_in) in
  fst (getRecipe (recipe_id pie) s') = Some pie ∧
  fst (getRecipe (JNum 1) s') = fst (getRecipe (JNum 1) logged_in).
Proof.
  destruct (saveRecipe_getRecipe pie logged_in (JNum 1)) as [Hsaved Hother].
  split; [exact Hsaved|]. apply Hother. discriminate.
Defined.

(** X2: [saveRecipe] replaces in place when the identifier is cached and
    appends otherwise; saving the same recipe twice is saving it once. *)
Theorem saveRecipe_upsert recipe s :
  let before := fst (getRecipes s) in
  let after := fst (getRecipes (snd (saveRecipe recipe s))) in
  ((∃ r, r ∈ before ∧ recipe_id r = recipe_id recipe) →
     length after = length before) ∧
  ((∀ r, r ∈ before → recipe_id r ≠ recipe_id recipe) →
     after = before ++ [recipe]) ∧
  saveRecipe recipe (snd (saveRecipe recipe s)) = saveRecipe recipe s.
Proof.
  intros before after. subst before after. rewrite saveRecipe_recipes.
  split_and!.
  - intros (r & Hr & Hid).
    destruct (list_find _ _) as [[k x]| ] eqn:Hf; [apply length_insert|].
    apply list_find_None in Hf. rewrite Forall_forall in Hf. by destruct (Hf r).
  - intros Hnone.
    destruct (list_find _ _) as [[k x]| ] eqn:Hf; [ |done].
    apply list_find_Some in Hf as (Hk & Hx & _).
    destruct (Hnone x); [by eapply list_elem_of_lookup_2|done].
  - unfold saveRecipe, findIndex, getRecipes, saveRecipes. simpl.
    destruct (list_find _ (default [] (slot_recipes s))) as [[k x]| ] eqn:Hf; simpl.
    + erewrite list_find_insert_match; [ |done..]. simpl.
      by rewrite list_insert_insert_eq.
    + rewrite list_find_snoc_match by done. simpl.
      rewrite insert_app_r_alt by done. by rewrite Nat.sub_diag.
Qed.

Lemma saveRecipe_upsert_witness :
  let again := {| recipe_id := JStr "temp_abc";
                  recipe_rest := [("title", JStr "Apple pie")] |} in
  length (fst (getRecipes (snd (saveRecipe again (store w_pie))))) =
    length (fst (getRecipes (store w_pie))) ∧
  fst (getRecipes (snd (saveRecipe pie logged_in))) =
    fst (getRecipes logged_in) ++ [pie] ∧
  saveRecipe pie (snd (saveRecipe pie logged_in)) = saveRecipe pie logged_in.
Proof.
  intros again. split_and!.
  - apply (proj1 (saveRecipe_upsert again (store w_pie))).
    exists pie. split; [by_evaluation|reflexivity].
  - apply (proj1 (proj2 (saveRecipe_upsert pie logged_in))).
    apply Forall_forall. by_evaluation.
  - apply (proj2 (proj2 (saveRecipe_upsert pie logged_in))).
Defined.

Lemma deleteRecipe_recipes id s :
  fst (getRecipes (snd (deleteRecipe id s))) =
  filter (λ recipe, recipe_id recipe ≠ id) (fst (getRecipes s)).
Proof. done. Qed.

(** X3: [deleteRecipe id] removes every cached recipe carrying [id] and
    leaves what is read under other identifiers as before. *)
Theorem deleteRecipe_getRecipe id s id' :
  let s' := snd (deleteRecipe id s) in
  fst (getRecipe id s') = None ∧
  (∀ r, r ∈ fst (getRecipes s') → recipe_id r ≠ id) ∧
  (id' ≠ id → fst (getRecipe id' s') = fst (getRecipe id' s)).
Proof.
  intros s'. subst s'. rewrite !getRecipe_find, deleteRecipe_recipes.
  assert (∀ r, r ∈ filter (λ recipe, recipe_id recipe ≠ id) (fst (getRecipes s)) →
               recipe_id r ≠ id) as Hgone
    by (by intros r [? _]%list_elem_of_filter).
  split_and!; [ |done| ].
  - rewrite (proj2 (list_find_None _ _)); [done|].
    apply Forall_forall. intros r Hr. by apply Hgone.
  - intros Hne. apply list_find_filter_implied. intros r. congruence.
Qed.

Lemma deleteRecipe_getRecipe_witness :
  let s := snd (saveRecipe server_pie (store w_pie)) in
  let s' := snd (deleteRecipe (JStr "temp_abc") s) in
  fst (getRecipe (JStr "temp_abc") s') = None ∧
  (∀ r, r ∈ fst (getRecipes s') → recipe_id r ≠ JStr "temp_abc") ∧
  fst (getRecipe (JNum 7) s') = fst (getRecipe (JNum 7) s).
Proof.
  intros s s'.
  destruct (deleteRecipe_getRecipe (JStr "temp_abc") s (JNum 7))
    as (Hgone & Hnone & Hother).
  split_and!; [exact Hgone|exact Hnone|]. apply Hother. discriminate.
Defined.

(** X4: deleting a recipe saved under an identifier that was not cached
    gives back the cached list. *)
Theorem deleteRecipe_undoes_saveRecipe recipe s :
  (∀ r, r ∈ fst (getRecipes s) → recipe_id r ≠ recipe_id recipe) →
  fst (getRecipes (snd (deleteRecipe (recipe_id recipe)
                          (snd (saveRecipe recipe s))))) =
  fst (getRecipes s).
Proof.
  intros Hnew. rewrite deleteRecipe_recipes, saveRecipe_recipes.
  rewrite (proj2 (list_find_None _ _)) by (by apply Forall_forall).
  rewrite filter_app, filter_cons_False by (by intros []).
  rewrite filter_nil, app_nil_r. by apply filter_all.
Qed.

Lemma deleteRecipe_undoes_saveRecipe_witness :
  let s := snd (saveRecipe server_pie logged_in) in
  fst (getRecipes (snd (deleteRecipe (recipe_id pie) (snd (saveRecipe pie s))))) =
  fst (getRecipes s).
Proof.
  apply (deleteRecipe_undoes_saveRecipe pie (snd (saveRecipe server_pie logged_in))).
  apply Forall_forall. by_evaluation.
Defined.

(** ** The outbox queue *)

(** X5: removing the identifier [addToOutbox] returned drops every item
    carrying it; if the identifier was fresh the outbox is as before. *)
Theorem removeFromOutbox_undoes_addToOutbox item now_id now_ts s :
  let id := fst (addToOutbox item now_id now_ts s) in
  let s' := snd (removeFromOutbox id (snd (addToOutbox item now_id now_ts s))) in
  fst (getOutbox s') = filter (λ x, item_id x ≠ id) (fst (getOutbox s)) ∧
  ((∀ x, x ∈ fst (getOutbox s) → item_id x ≠ id) →
     fst (getOutbox s') = fst (getOutbox s)).
Proof.
  intros id s'. subst id s'.
  assert (fst (getOutbox (snd (removeFromOutbox
            (fst (addToOutbox item now_id now_ts s))
            (snd (addToOutbox item now_id now_ts s))))) =
          filter (λ x, item_id x ≠ fst (addToOutbox item now_id now_ts s))
            (fst (getOutbox s))) as Heq.
  { simpl. rewrite filter_app, filter_cons_False by (intros H; by apply H).
    by rewrite filter_nil, app_nil_r. }
  split; [done|]. intros Hfresh. rewrite Heq. by apply filter_all.
Qed.

Lemma removeFromOutbox_undoes_addToOutbox_witness :
  let s := store w_delete in
  let id := fst (addToOutbox create_pie 5 5 s) in
  let s' := snd (removeFromOutbox id (snd (addToOutbox create_pie 5 5 s))) in
  fst (getOutbox s') = fst (getOutbox s).
Proof.
  apply (proj2 (removeFromOutbox_undoes_addToOutbox create_pie 5 5
                  (store w_delete))).
  apply Forall_forall. by_evaluation.
Defined.

Lemma merge_mark_twice x st err :
  merge (merge x (mark st err)) (mark st err) = merge x (mark st err).
Proof. unfold merge. simpl. by destruct err. Qed.

(** X6: marking an item twice is marking it once, and a removal after the
    mark is the removal without it. *)
Theorem marking_is_idempotent_and_lost_on_removal id st err s :
  let s1 := snd (updateOutboxItem id (mark st err) s) in
  updateOutboxItem id (mark st err) s1 = updateOutboxItem id (mark st err) s ∧
  removeFromOutbox id s1 = removeFromOutbox id s.
Proof.
  intros s1. subst s1. split.
  - unfold updateOutboxItem. simpl.
    destruct (list_find _ (default [] (slot_outbox s))) as [[k x]| ] eqn:Hf; simpl.
    + erewrite list_find_insert_match; [ |done| ].
      * rewrite merge_mark_twice. by rewrite list_insert_insert_eq.
      * apply list_find_Some in Hf as (_ & Hx & _). done.
    + by rewrite Hf.
  - unfold removeFromOutbox. simpl.
    pose proof (updateOutboxItem_store id (mark st err) s) as (Hu & Ht & Hr & Ho).
    simpl in *. unfold getOutbox in Ho. simpl in Ho. rewrite Ho.
    rewrite (updated_frame (λ item, item_id item ≠ id)) by done.
    f_equal. unfold set_outbox. by rewrite Hu, Ht, Hr.
Qed.

(** X7: [removeFromOutbox] is idempotent and two removals commute. *)
Theorem removeFromOutbox_idempotent_commutes a b s :
  snd (removeFromOutbox a (snd (removeFromOutbox a s))) = snd (removeFromOutbox a s) ∧
  snd (removeFromOutbox a (snd (removeFromOutbox b s))) =
  snd (removeFromOutbox b (snd (removeFromOutbox a s))).
Proof.
  unfold removeFromOutbox, set_outbox. simpl. split; f_equal; f_equal.
  - apply filter_filter_implied. done.
  - rewrite !list_filter_filter. apply list_filter_iff. intros x. tauto.
Qed.

(** ** More about a pass *)

Lemma nothing_pending env w :
  pendingItems (store w) = [] →
  processOutbox env w = ({| synced := 0; errors := 0 |}, w).
Proof. intros Hp. unfold processOutbox. rewrite Hp. by destruct (onLine env). Qed.

(** X8: an online pass counts every pending item exactly once. *)
Theorem pass_counts_each_pending_item_once env w :
  onLine env = true →
  (synced (fst (processOutbox env w)) + errors (fst (processOutbox env w)))%nat
  = length (pendingItems (store w)).
Proof.
  intros Hon. rewrite processOutbox_online by done. simpl. unfold pass_counts.
  destruct (sync_items _ _ _ _) as [[s e] w'] eqn:Hrun.
  apply sync_items_total in Hrun. simpl. lia.
Qed.

Lemma pass_counts_each_pending_item_once_witness :
  (synced (fst (processOutbox (online api_down) w_pie)) +
   errors (fst (processOutbox (online api_down) w_pie)))%nat
  = length (pendingItems (store w_pie)).
Proof.
  apply (pass_counts_each_pending_item_once (online api_down) w_pie).
  reflexivity.
Defined.

Lemma sync_item_recipes_length env item c w c' w' :
  sync_item env item c w = (c', w') →
  length (recipes_of w') = length (recipes_of w).
Proof.
  intros [->|(_ & resp & rid & k & found & log & tok & _ & _ & _ & ->)]%sync_item_recipes;
    [done|apply length_insert].
Qed.

Lemma sync_item_requests env item c w c' w' :
  sync_item env item c w = (c', w') →
  requests w' =
    requests w ++
    (if falsy (slot_token (store w)) then []
     else [request_of item (default "" (slot_token (store w)))]).
Proof.
  destruct c as [s e]. destruct (falsy (slot_token (store w))) eqn:Hf.
  - rewrite sync_item_no_token by done. intros [= <- <-]. simpl.
    by rewrite app_nil_r.
  - apply falsy_false in Hf as (tok & Htok & Hne).
    rewrite (sync_item_token _ _ _ _ _ tok) by done. rewrite Htok. simpl.
    destruct (dispatch _ _ _ _) as [[[]|ex] w2] eqn:Hd;
      apply dispatch_frame in Hd as (_ & _ & _ & Hreq);
      cbv iota beta; intros [= <- <-]; done.
Qed.

Lemma sync_items_requests env items c w c' w' tok :
  slot_token (store w) = Some tok → tok ≠ "" →
  sync_items env items c w = (c', w') →
  requests w' = requests w ++ ((λ item, request_of item tok) <$> items).
Proof.
  intros Htok Hne. revert c w Htok.
  induction items as [|y l IH]; intros c w Htok; cbn [sync_items].
  - intros [= <- <-]. simpl. by rewrite app_nil_r.
  - destruct (sync_item env y c w) as [c1 w1] eqn:Hy. intros Hl.
    pose proof (sync_item_requests _ _ _ _ _ _ Hy) as Hreq.
    rewrite Htok in Hreq. simpl in Hreq.
    rewrite bool_decide_eq_false_2 in Hreq by done.
    destruct c as [s e].
    apply sync_item_cases in Hy as (_ & Ht1 & _).
    apply IH in Hl; [ |congruence].
    rewrite Hl, Hreq, fmap_cons, <- app_assoc. done.
Qed.

Lemma sync_items_recipes_length env items c w c' w' :
  sync_items env items c w = (c', w') →
  length (recipes_of w') = length (recipes_of w).
Proof.
  revert c w. induction items as [|y l IH]; intros c w; cbn [sync_items].
  - by intros [= <- <-].
  - destruct (sync_item env y c w) as [c1 w1] eqn:Hy. intros Hl%IH.
    apply sync_item_recipes_length in Hy. congruence.
Qed.

Lemma sync_items_prefix env items c w c' w' :
  sync_items env items c w = (c', w') → requests w `prefix_of` requests w'.
Proof.
  revert c w. induction items as [|y l IH]; intros c w; cbn [sync_items].
  - by intros [= <- <-].
  - destruct (sync_item env y c w) as [c1 w1] eqn:Hy. intros Hl%IH.
    apply sync_item_requests in Hy. etrans; [ |done].
    rewrite Hy. by apply prefix_app_r.
Qed.

(** X9: a pass keeps the user and token slots, never adds or reorders
    outbox items, keeps the number of cached recipes and only appends to the
    request log. *)
Theorem pass_keeps_session_and_never_adds env w :
  let w' := snd (processOutbox env w) in
  slot_user (store w') = slot_user (store w) ∧
  slot_token (store w') = slot_token (store w) ∧
  item_id <$> outbox_of w' `sublist_of` item_id <$> outbox_of w ∧
  length (recipes_of w') = length (recipes_of w) ∧
  requests w `prefix_of` requests w'.
Proof.
  intros w'. subst w'. destruct (onLine env) eqn:Hon.
  - rewrite processOutbox_online by done. simpl.
    destruct (pass_world_slots env (pendingItems (store w)) w) as [Hu Ht].
    split_and!; [done|done|apply pass_world_ids| | ]; unfold pass_world;
      destruct (sync_items _ _ _ _) as [c w'] eqn:Hrun; simpl.
    + by eapply sync_items_recipes_length.
    + by eapply sync_items_prefix.
  - unfold processOutbox. rewrite Hon. done.
Qed.

(** X10: with a token, an online pass issues one request per pending item,
    in stored order. *)
Theorem pass_issues_one_request_per_item_in_order env w tok :
  onLine env = true →
  slot_token (store w) = Some tok → tok ≠ "" →
  requests (snd (processOutbox env w)) =
  requests w ++ ((λ item, request_of item tok) <$> pendingItems (store w)).
Proof.
  intros Hon Htok Hne. rewrite processOutbox_online by done. simpl.
  unfold pass_world. destruct (sync_items _ _ _ _) as [c w'] eqn:Hrun. simpl.
  by eapply sync_items_requests.
Qed.

Lemma pass_issues_one_request_per_item_in_order_witness :
  requests (snd (processOutbox (online api_not_found) w_pie)) =
  requests w_pie ++
    ((λ item, request_of item "tok") <$> pendingItems (store w_pie)).
Proof.
  apply (pass_issues_one_request_per_item_in_order
           (online api_not_found) w_pie "tok");
    [reflexivity|reflexivity|discriminate].
Defined.

(** X11: enqueued items queue up behind the pending ones and the next
    online pass sends their requests in enqueue order. *)
Theorem pass_replays_enqueues_in_order ops s a log tok :
  slot_token s = Some tok → tok ≠ "" →
  let w := {| store := enqueue_all ops s; requests := log |} in
  pendingItems (store w) = pendingItems s ++ (enqueued <$> ops) ∧
  requests (snd (processOutbox (online a) w)) =
    log ++ ((λ item, request_of item tok) <$> pendingItems s)
        ++ ((λ item, request_of item tok) <$> (enqueued <$> ops)).
Proof.
  intros Htok Hne w.
  destruct (enqueue_all_store ops s) as (_ & Htok' & _ & Hout).
  assert (pendingItems (store w) = pendingItems s ++ (enqueued <$> ops)) as Hp.
  { unfold pendingItems. cbn [store w]. rewrite Hout, filter_app. f_equal.
    apply filter_all. by intros x (op & -> & _)%list_elem_of_fmap. }
  split; [done|].
  rewrite processOutbox_online by done. cbn [snd]. unfold pass_world.
  destruct (sync_items _ _ _ _) as [c w'] eqn:Hrun. cbn [snd].
  apply (sync_items_requests _ _ _ _ _ _ tok) in Hrun;
    [ |cbn [store w]; congruence|done].
  rewrite Hrun, Hp, fmap_app. done.
Qed.

Lemma pass_replays_enqueues_in_order_witness :
  let ops := [enqueue_create; enqueue_delete] in
  let w := {| store := enqueue_all ops logged_in; requests := [] |} in
  pendingItems (store w) = pendingItems logged_in ++ (enqueued <$> ops) ∧
  requests (snd (processOutbox (online api_down) w)) =
    [] ++ ((λ item, request_of item "tok") <$> pendingItems logged_in)
       ++ ((λ item, request_of item "tok") <$> (enqueued <$> ops)).
Proof.
  apply (pass_replays_enqueues_in_order [enqueue_create; enqueue_delete]
           logged_in api_down [] "tok"); [reflexivity|discriminate].
Defined.

(** X12: a pass without a pending create leaves the cached recipes as they
    are. *)
Theorem pass_without_create_keeps_cache env w :
  (∀ x, x ∈ pendingItems (store w) → item_type x ≠ Create) →
  recipes_of (snd (processOutbox env w)) = recipes_of w.
Proof.
  intros Hnone. destruct (onLine env) eqn:Hon.
  2:{ unfold processOutbox. by rewrite Hon. }
  rewrite processOutbox_online by done. simpl. unfold pass_world.
  revert Hnone. generalize (0, 0)%nat. generalize (pendingItems (store w)).
  intros items. revert w. induction items as [|y l IH]; intros w c Hnone; [done|].
  cbn [sync_items]. destruct (sync_item env y c w) as [c1 w1] eqn:Hy.
  rewrite IH by (intros x Hx; apply Hnone; by right).
  apply sync_item_recipes in Hy as [->|(Hty & _)]; [done|].
  destruct (Hnone y); [left|done].
Qed.

Lemma pass_without_create_keeps_cache_witness :
  let w := {| store := snd (saveRecipe pie (store w_delete));
              requests := [] |} in
  recipes_of (snd (processOutbox (online (api_answers (JNum 7))) w)) =
  recipes_of w.
Proof.
  apply (pass_without_create_keeps_cache (online (api_answers (JNum 7)))
           {| store := snd (saveRecipe pie (store w_delete)); requests := [] |}).
  apply Forall_forall. by_evaluation.
Defined.

(** What a pass leaves under the identifier of one of its items, identifiers
    being pairwise distinct: nothing if the attempt went through, the item
    marked [error] if it threw. *)
Lemma pending_item_outcome env w pre item post :
  NoDup (item_id <$> outbox_of w) →
  pendingItems (store w) = pre ++ item :: post →
  let w1 := pass_world env pre w in
  let w' := pass_world env (pre ++ item :: post) w in
  (fst (try_sync env item w1) = Ok tt ∧
   pass_counts env [item] w1 = (1, 0)%nat ∧
   filter (λ y, item_id y = item_id item) (outbox_of w') = []) ∨
  (∃ ex, fst (try_sync env item w1) = Throw ex ∧
         pass_counts env [item] w1 = (0, 1)%nat ∧
         filter (λ y, item_id y = item_id item) (outbox_of w') =
           [failed item ex]).
Proof.
  intros Hnd Hpend w1 w'.
  pose proof (pending_ids_NoDup w Hnd) as Hpnd.
  rewrite Hpend, fmap_app, fmap_cons in Hpnd.
  apply NoDup_app in Hpnd as (_ & Hpre & [Hpost _]%NoDup_cons).
  assert (item ∈ outbox_of w) as Hin.
  { apply (pending_in_outbox (store w)). rewrite Hpend.
    apply elem_of_app. right. left. }
  set (w2 := pass_world env [item] w1).
  assert (w' = pass_world env post w2) as ->.
  { subst w'. rewrite (proj1 (pass_app env pre (item :: post) w)).
    apply (proj1 (pass_app env [item] post w1)). }
  assert (filter (λ y, item_id y = item_id item) (outbox_of w1) = [item]) as H1.
  { unfold w1. rewrite pass_world_frame; [by apply filter_own_id|].
    intros y Hy Hyin. apply (Hpre (item_id y) Hyin). rewrite Hy. left. }
  assert (NoDup (item_id <$> outbox_of w1)) as Hnd1.
  { eapply sublist_NoDup; [exact Hnd|apply pass_world_ids]. }
  rewrite pass_world_frame by (intros y Hy Hyin; apply Hpost; by rewrite <- Hy).
  pose proof (pass_single env item w1) as Hstep. fold w2 in Hstep.
  apply sync_item_cases in Hstep
    as (_ & _ & [(Hc & Hok & ->)|(ex & Hc & Hex & ->)]).
  - left. split_and!; [done|done| ].
    apply filter_none. intros y Hy%removed_no_id. done.
  - right. exists ex. split_and!; [done|done| ].
    rewrite (updated_own _ _ _ _ (merge item (mark Syncing None)));
      [done|by rewrite updated_ids|by apply updated_own].
Qed.

Lemma pass_final_outbox env w :
  onLine env = true →
  NoDup (item_id <$> outbox_of w) →
  let w' := snd (processOutbox env w) in
  (∀ x, x ∈ outbox_of w' →
     (x ∈ outbox_of w ∧ item_status x ≠ Pending) ∨
     (∃ item ex, item ∈ pendingItems (store w) ∧ x = failed item ex)) ∧
  pendingItems (store w') = [].
Proof.
  intros Hon Hnd w'. subst w'. rewrite processOutbox_online by done. simpl.
  set (w' := pass_world env (pendingItems (store w)) w).
  assert (∀ x, x ∈ outbox_of w' →
     (x ∈ outbox_of w ∧ item_status x ≠ Pending) ∨
     (∃ item ex, item ∈ pendingItems (store w) ∧ x = failed item ex)) as Hall.
  { intros x Hx.
    destruct (decide (item_id x ∈ item_id <$> pendingItems (store w)))
      as [Hin|Hout].
    - right. apply list_elem_of_fmap in Hin as (item & Hid & Hitem).
      pose proof Hitem as (pre & post & Hsplit)%list_elem_of_split.
      destruct (pending_item_outcome env w pre item post Hnd Hsplit)
        as [(_ & _ & Hf)|(ex & _ & _ & Hf)]; rewrite <- Hsplit in Hf; fold w' in Hf.
      + exfalso. eapply (filter_nil_not_elem_of _ _ x Hf); done.
      + exists item, ex. split; [done|].
        apply list_elem_of_singleton. rewrite <- Hf. by apply list_elem_of_filter.
    - left.
      assert (x ∈ filter (λ y, item_id y ∉ item_id <$> pendingItems (store w))
                (outbox_of w)) as [_ Hxw]%list_elem_of_filter.
      { unfold w'. rewrite <- (pass_world_frame _ env (pendingItems (store w)) w)
          by done. by apply list_elem_of_filter. }
      split; [done|]. intros Hp. apply Hout. apply list_elem_of_fmap_2.
      by apply pending_in_outbox. }
  split; [done|]. apply filter_none. intros x Hx Hp.
  destruct (Hall x Hx) as [[_ ?]|(item & ex & _ & ->)]; done.
Qed.



(** X14: identifiers being pairwise distinct, the pass after an online
    pass does nothing. *)
Theorem second_pass_does_nothing env env2 w :
  onLine env = true →
  NoDup (item_id <$> outbox_of w) →
  let w' := snd (processOutbox env w) in
  processOutbox env2 w' = ({| synced := 0; errors := 0 |}, w').
Proof.
  intros Hon Hnd w'. apply nothing_pending.
  by apply (pass_final_outbox env w).
Qed.

Lemma second_pass_does_nothing_witness :
  let w' := snd (processOutbox (online api_down) w_pie) in
  processOutbox (online (api_answers (JNum 7))) w' =
    ({| synced := 0; errors := 0 |}, w').
Proof.
  apply (second_pass_does_nothing (online api_down)
           (online (api_answers (JNum 7))) w_pie);
    [reflexivity|by_evaluation].
Defined.

(** X15: an item whose [fetch] rejects, a delete included, is counted as an
    error and kept with the message of the rejection. *)
Theorem rejected_call_keeps_item_as_error env w pre item post tok e :
  onLine env = true →
  NoDup (item_id <$> outbox_of w) →
  pendingItems (store w) = pre ++ item :: post →
  slot_token (store w) = Some tok → tok ≠ "" →
  let w1 := pass_world env pre w in
  api env (requests w1) (request_of item tok) = Rejects e →
  let w' := snd (processOutbox env w) in
  pass_counts env [item] w1 = (0, 1)%nat ∧
  filter (λ y, item_id y = item_id item) (outbox_of w') = [failed item e].
Proof.
  intros Hon Hnd Hpend Htok Hne w1 Hrej w'. subst w' w1.
  rewrite processOutbox_online by done. simpl. rewrite Hpend.
  assert (fst (try_sync env item (pass_world env pre w)) = Throw e) as Hthrow.
  { apply (try_sync_rejected _ _ _ tok); [ |done..].
    by rewrite (proj2 (pass_world_slots env pre w)). }
  destruct (pending_item_outcome env w pre item post Hnd Hpend)
    as [(Hok & _)|(ex & Hex & Hc & Hf)]; [congruence|].
  assert (ex = e) as -> by congruence. done.
Qed.

Lemma rejected_call_keeps_item_as_error_witness :
  let item := enqueued enqueue_delete in
  let w' := snd (processOutbox (online api_down) w_delete) in
  pass_counts (online api_down) [item] (pass_world (online api_down) [] w_delete)
    = (0, 1)%nat ∧
  filter (λ y, item_id y = item_id item) (outbox_of w') =
    [failed item (JsError "Failed to fetch")].
Proof.
  apply (rejected_call_keeps_item_as_error (online api_down) w_delete []
           (enqueued enqueue_delete) [] "tok" (JsError "Failed to fetch"));
    [reflexivity|by_evaluation|reflexivity|reflexivity|discriminate|reflexivity].
Defined.

(** X16: a create or update answered with a non-success status is counted
    as an error and kept with the message "Server returned <status>". *)
Theorem refused_call_keeps_item_with_status env w pre item post tok r :
  onLine env = true →
  NoDup (item_id <$> outbox_of w) →
  pendingItems (store w) = pre ++ item :: post →
  slot_token (store w) = Some tok → tok ≠ "" →
  item_type item ≠ Delete →
  let w1 := pass_world env pre w in
  api env (requests w1) (request_of item tok) = Resolves r →
  resp_ok r = false →
  let w' := snd (processOutbox env w) in
  pass_counts env [item] w1 = (0, 1)%nat ∧
  ∃ x, filter (λ y, item_id y = item_id item) (outbox_of w') = [x] ∧
       item_status x = Error ∧
       item_error x = Some ("Server returned " +:+ pretty (resp_status r)) ∧
       item_type x = item_type item ∧ item_data x = item_data item.
Proof.
  intros Hon Hnd Hpend Htok Hne Hty w1 Hres Hok w'. subst w' w1.
  rewrite processOutbox_online by done. simpl. rewrite Hpend.
  assert (fst (try_sync env item (pass_world env pre w)) =
          Throw (JsError ("Server returned " +:+ pretty (resp_status r))))
    as Hthrow.
  { apply (try_sync_refused _ _ _ tok); [ |done..].
    by rewrite (proj2 (pass_world_slots env pre w)). }
  destruct (pending_item_outcome env w pre item post Hnd Hpend)
    as [(Hsucc & _)|(ex & Hex & Hc & Hf)]; [congruence|].
  split; [done|]. exists (failed item ex). split; [done|].
  assert (ex = JsError ("Server returned " +:+ pretty (resp_status r)))
    as -> by congruence.
  done.
Qed.

Lemma refused_call_keeps_item_with_status_witness :
  let item := enqueued enqueue_create in
  let w' := snd (processOutbox (online api_not_found) w_pie) in
  pass_counts (online api_not_found) [item]
    (pass_world (online api_not_found) [] w_pie) = (0, 1)%nat ∧
  ∃ x, filter (λ y, item_id y = item_id item) (outbox_of w') = [x] ∧
       item_status x = Error ∧
       item_error x = Some ("Server returned " +:+ pretty 404) ∧
       item_type x = item_type item ∧ item_data x = item_data item.
Proof.
  apply (refused_call_keeps_item_with_status (online api_not_found) w_pie []
           (enqueued enqueue_create) [] "tok"
           {| resp_ok := false; resp_status := 404; resp_json := BodyNull |});
    [reflexivity|by_evaluation|reflexivity|reflexivity|discriminate
    |discriminate|reflexivity|reflexivity].
Defined.

(** X17: [logout] keeps the outbox and clears the token, so the next online
    pass fails every pending item for want of a token and sends nothing. *)
Theorem pass_after_logout_fails_every_item env w :
  onLine env = true →
  NoDup (item_id <$> outbox_of w) →
  let w0 := {| store := snd (logout (store w)); requests := requests w |} in
  let result := fst (processOutbox env w0) in
  let w' := snd (processOutbox env w0) in
  outbox_of w0 = outbox_of w ∧
  synced result = 0%nat ∧
  errors result = length (pendingItems (store w)) ∧
  requests w' = requests w ∧
  outbox_of w' =
    (λ x, if decide (item_status x = Pending)
          then failed x no_token else x) <$> outbox_of w.
Proof.
  intros Hon Hnd w0 result w'. subst result w'.
  assert (outbox_of w0 = outbox_of w) as Hsame by done.
  assert (pendingItems (store w0) = pendingItems (store w)) as Hp by done.
  rewrite processOutbox_online by done. unfold pass_counts, pass_world.
  destruct (sync_items _ _ _ w0) as [[s' e'] w'] eqn:Hrun. simpl.
  apply no_token_loop in Hrun as (-> & -> & -> & ->);
    [ |done|by rewrite Hsame].
  rewrite Hp, Hsame. split_and!; [done..| ].
  apply list_fmap_ext. intros i x Hi.
  apply list_elem_of_lookup_2 in Hi.
  destruct (decide (item_status x = Pending)) as [Hx|Hx].
  - rewrite decide_True; [done|]. apply list_elem_of_fmap_2.
    by apply pending_in_outbox.
  - rewrite decide_False; [done|].
    intros (y & Heq & [Hyp Hyin]%pending_in_outbox)%list_elem_of_fmap.
    assert (x = y) as -> by (by eapply NoDup_ids_eq). done.
Qed.

Lemma pass_after_logout_fails_every_item_witness :
  let env := online (api_answers (JNum 7)) in
  let w0 := {| store := snd (logout (store w_pie)); requests := requests w_pie |} in
  outbox_of w0 = outbox_of w_pie ∧
  synced (fst (processOutbox env w0)) = 0%nat ∧
  errors (fst (processOutbox env w0)) = length (pendingItems (store w_pie)) ∧
  requests (snd (processOutbox env w0)) = requests w_pie ∧
  outbox_of (snd (processOutbox env w0)) =
    (λ x, if decide (item_status x = Pending)
          then failed x no_token else x) <$> outbox_of w_pie.
Proof.
  apply (pass_after_logout_fails_every_item (online (api_answers (JNum 7))) w_pie);
    [reflexivity|by_evaluation].
Defined.

(** ** The recipe form *)

Lemma saveOffline_effects recipe now_id now_ts s :
  let r := saveOffline recipe now_id now_ts s in
  let s' := snd r in
  fst (fst r) = recipe ∧
  fst (getRecipe (recipe_id recipe) s') = Some recipe ∧
  fst (getOutbox s') = fst (getOutbox s) ++ [queued_create recipe now_id now_ts] ∧
  pendingItems s' = pendingItems s ++ [queued_create recipe now_id now_ts] ∧
  snd (fst r) = [SetQueryData (fst (getRecipes s') ++ [recipe])] ∧
  recipe ∈ fst (getRecipes s') ∧
  slot_user s' = slot_user s ∧ slot_token s' = slot_token s.
Proof.
  intros r s'. subst r s'. unfold saveOffline.
  destruct (saveRecipe recipe s) as [r1 s1] eqn:Hsave.
  assert (s1 = snd (saveRecipe recipe s)) as Hs1 by (by rewrite Hsave).
  simpl.
  pose proof (saveRecipe_lookup recipe s (recipe_id recipe)) as [Hget _].
  rewrite <- Hs1 in Hget.
  assert (slot_outbox s1 = slot_outbox s ∧ slot_user s1 = slot_user s ∧
          slot_token s1 = slot_token s) as (Ho & Hu & Ht).
  { by rewrite Hs1. }
  split_and!; try done.
  - unfold getOutbox. simpl. by rewrite Ho.
  - unfold pendingItems, getOutbox. simpl. rewrite Ho, filter_app. done.
  - rewrite getRecipe_find in Hget.
    destruct (list_find _ _) as [[k x]| ] eqn:Hf; [ |done].
    apply list_find_Some in Hf as (Hk & _ & _). simpl in Hget.
    injection Hget as ->. by eapply list_elem_of_lookup_2.
Qed.

(** X18: [saveOffline] caches the recipe, queues its creation last, and
    hands the query cache a list in which the recipe occurs twice. *)
Theorem saveOffline_caches_and_queues recipe now_id now_ts s :
  let r := saveOffline recipe now_id now_ts s in
  let s' := snd r in
  fst (fst r) = recipe ∧
  fst (getRecipe (recipe_id recipe) s') = Some recipe ∧
  fst (getOutbox s') = fst (getOutbox s) ++ [queued_create recipe now_id now_ts] ∧
  pendingItems s' = pendingItems s ++ [queued_create recipe now_id now_ts] ∧
  snd (fst r) = [SetQueryData (fst (getRecipes s') ++ [recipe])] ∧
  recipe ∈ fst (getRecipes s') ∧
  slot_user s' = slot_user s ∧ slot_token s' = slot_token s.
Proof. apply saveOffline_effects. Qed.

(** X19: a recipe saved offline and then synced against a server that
    assigns another identifier ends up cached under the server identifier,
    with the outbox empty and one POST sent. *)
Theorem offline_create_then_sync recipe now_id now_ts s a log tok r sid :
  fst (getOutbox s) = [] →
  slot_token s = Some tok → tok ≠ "" →
  (∀ c, c ∈ fst (getRecipes s) → recipe_id c ≠ recipe_id recipe) →
  let item := queued_create recipe now_id now_ts in
  let w := {| store := snd (saveOffline recipe now_id now_ts s);
              requests := log |} in
  a log (create_or_update_request item tok) = Resolves r →
  resp_ok r = true → resp_json r = BodyValue sid →
  sid ≠ recipe_id recipe →
  let w' := snd (processOutbox (online a) w) in
  fst (processOutbox (online a) w) = {| synced := 1; errors := 0 |} ∧
  outbox_of w' = [] ∧
  recipes_of w' = fst (getRecipes s) ++ [with_id recipe sid] ∧
  requests w' = log ++ [create_or_update_request item tok].
Proof.
  intros Hempty Htok Hne Hnew item w Hapi Hok Hbody Hsid w'. subst w'.
  pose proof (saveOffline_effects recipe now_id now_ts s)
    as (_ & _ & Hout & Hpend & _ & _ & _ & Htok').
  assert (pendingItems s = []) as Hp0 by (unfold pendingItems; by rewrite Hempty).
  rewrite Hempty in Hout. rewrite Hp0 in Hpend.
  rewrite app_nil_l in Hout, Hpend. fold item in Hout, Hpend.
  assert (recipes_of w = fst (getRecipes s) ++ [recipe]) as Hrec.
  { transitivity (fst (getRecipes (snd (saveRecipe recipe s)))); [done|].
    rewrite saveRecipe_recipes.
    by rewrite (proj2 (list_find_None _ _)) by (by apply Forall_forall). }
  assert (outbox_of w = [item]) as Hbox by done.
  assert (slot_token (store w) = Some tok) as Htokw by (by rewrite <- Htok).
  rewrite processOutbox_online by done.
  assert (pendingItems (store w) = [item]) as -> by done.
  pose proof (pass_single (online a) item w) as Hstep.
  rewrite (sync_item_token _ _ _ _ _ tok) in Hstep by done.
  set (w0 := {| store := _; requests := requests w |}) in Hstep.
  assert (recipes_of w0 = recipes_of w) as Hw0.
  { apply recipes_of_slot. unfold w0. cbn [store].
    by rewrite (proj1 (proj2 (proj2 (updateOutboxItem_store _ _ _)))). }
  assert (outbox_of w0 = updated (item_id item) (mark Syncing None) [item])
    as Hbox0.
  { unfold outbox_of, w0. cbn [store].
    rewrite (proj2 (proj2 (proj2 (updateOutboxItem_store _ _ _)))).
    by rewrite <- Hbox. }
  rewrite (dispatch_create _ _ _ _ r sid (length (fst (getRecipes s))) recipe)
    in Hstep; [ |done|done|done|done|done| ].
  2:{ rewrite Hw0, Hrec. apply list_find_snoc_match; [ |done].
      apply list_find_None. by apply Forall_forall. }
  injection Hstep as Hc Hw2. cbn [fst snd synced errors].
  rewrite <- Hc, <- Hw2. split_and!; [done| | |done].
  - transitivity (removed (item_id item) (outbox_of w0)); [done|].
    rewrite Hbox0. apply filter_none. intros x Hx Hid. apply Hid.
    apply (list_elem_of_fmap_2 item_id) in Hx.
    rewrite updated_ids in Hx. by apply list_elem_of_singleton in Hx.
  - transitivity (<[length (fst (getRecipes s)) := with_id recipe sid]>
                    (recipes_of w0)); [done|].
    rewrite Hw0, Hrec. by rewrite insert_app_r_alt, Nat.sub_diag.
Qed.

Lemma offline_create_then_sync_witness :
  let a := api_answers (JNum 42) in
  let item := queued_create pie 5 5 in
  let w := {| store := snd (saveOffline pie 5 5 logged_in); requests := [] |} in
  let w' := snd (processOutbox (online a) w) in
  fst (processOutbox (online a) w) = {| synced := 1; errors := 0 |} ∧
  outbox_of w' = [] ∧
  recipes_of w' = fst (getRecipes logged_in) ++ [with_id pie (JNum 42)] ∧
  requests w' = [] ++ [create_or_update_request item "tok"].
Proof.
  apply (offline_create_then_sync pie 5 5 logged_in (api_answers (JNum 42)) []
           "tok" {| resp_ok := true; resp_status := 200;
                    resp_json := BodyValue (JNum 42) |} (JNum 42));
    [reflexivity|reflexivity|discriminate| |reflexivity|reflexivity
    |reflexivity|discriminate].
  apply Forall_forall. by_evaluation.
Defined.

Lemma syncRecipes_nothing_to_do env w :
  onLine env = false ∨ pendingItems (store w) = [] →
  syncRecipes env w = ([], w).
Proof.
  intros [Hoff|Hnone]; unfold syncRecipes.
  - by rewrite Hoff.
  - destruct (onLine env); [ |done]. simpl. by rewrite nothing_pending.
Qed.

Lemma syncRecipes_world env w :
  snd (syncRecipes env w) = snd (processOutbox env w).
Proof.
  unfold syncRecipes, processOutbox. destruct (onLine env); simpl; [ |done].
  by destruct (sync_items _ _ _ _).
Qed.

(** X20: [syncRecipes] does and shows nothing when offline or when no item
    is pending. *)
Theorem syncRecipes_quiet env w :
  onLine env = false ∨ (∀ x, x ∈ outbox_of w → item_status x ≠ Pending) →
  syncRecipes env w = ([], w).
Proof.
  intros [Hoff|Hnone]; apply syncRecipes_nothing_to_do; [by left|right].
  apply filter_none. intros x Hx. by apply Hnone.
Qed.

Lemma syncRecipes_quiet_witness :
  syncRecipes (offline api_down) w_pie = ([], w_pie) ∧
  syncRecipes (online api_down) w_failed = ([], w_failed).
Proof.
  split.
  - apply (syncRecipes_quiet (offline api_down) w_pie). left. reflexivity.
  - apply (syncRecipes_quiet (online api_down) w_failed). right.
    apply Forall_forall. by_evaluation.
Defined.

(** X21: identifiers being pairwise distinct, a [syncRecipes] after an
    online one does and shows nothing. *)
Theorem syncRecipes_again_is_quiet env env2 w :
  onLine env = true →
  NoDup (item_id <$> outbox_of w) →
  syncRecipes env2 (snd (syncRecipes env w)) = ([], snd (syncRecipes env w)).
Proof.
  intros Hon Hnd. apply syncRecipes_nothing_to_do. right.
  rewrite syncRecipes_world. by apply (pass_final_outbox env w).
Qed.

Lemma syncRecipes_again_is_quiet_witness :
  syncRecipes (online (api_answers (JNum 7)))
    (snd (syncRecipes (online api_down) w_pie)) =
  ([], snd (syncRecipes (online api_down) w_pie)).
Proof.
  apply (syncRecipes_again_is_quiet (online api_down)
           (online (api_answers (JNum 7))) w_pie);
    [reflexivity|by_evaluation].
Defined.

(** X22: after enqueues into an empty outbox, a fully successful
    [syncRecipes] invalidates the queries and shows one toast with the number
    of items enqueued. *)
Theorem syncRecipes_reports_every_enqueued_item ops s a log tok :
  ops ≠ [] →
  fst (getOutbox s) = [] →
  slot_token s = Some tok → tok ≠ "" →
  always_succeeds a →
  let w := {| store := enqueue_all ops s; requests := log |} in
  fst (syncRecipes (online a) w) =
    [InvalidateQueries;
     ShowToast "Sync Complete"
       ("Successfully synced " +:+ pretty (length ops) +:+ " recipe(s)")
       "default"].
Proof.
  intros Hops Hempty Htok Hne Hok w.
  destruct (enqueue_all_store ops s) as (_ & Htok' & _ & Hout).
  rewrite Hempty in Hout. simpl in Hout.
  assert (pendingItems (store w) = enqueued <$> ops) as Hp.
  { unfold pendingItems. simpl. rewrite Hout.
    apply filter_all. by intros x (op & -> & _)%list_elem_of_fmap. }
  unfold syncRecipes, processOutbox. cbn [online onLine negb]. rewrite Hp.
  destruct (sync_items _ _ _ w) as [[s' e'] w'] eqn:Hrun.
  eapply (all_succeed_loop _ _ _ _ _ tok) in Hrun as (-> & -> & _);
    [ |simpl; congruence|done|done].
  cbn [fst snd synced errors]. rewrite length_fmap.
  rewrite decide_True by (destruct ops; simpl; [done|lia]).
  by rewrite decide_False by lia.
Qed.

Lemma syncRecipes_reports_every_enqueued_item_witness :
  let ops := [enqueue_create; enqueue_delete] in
  let w := {| store := enqueue_all ops logged_in; requests := [] |} in
  fst (syncRecipes (online (api_answers (JNum 7))) w) =
    [InvalidateQueries;
     ShowToast "Sync Complete"
       ("Successfully synced " +:+ pretty (length ops) +:+ " recipe(s)")
       "default"].
Proof.
  apply (syncRecipes_reports_every_enqueued_item [enqueue_create; enqueue_delete]
           logged_in (api_answers (JNum 7)) [] "tok");
    [discriminate|reflexivity|reflexivity|discriminate| ].
  intros log req. by eexists _, _.
Defined.

(** ** The query function *)

(** X23: offline, a recipes query is answered from the cache, without a
    request, whatever the cache holds. *)
Theorem offline_recipe_query_is_served_from_cache on401 qenv queryKey s :
  q_onLine qenv = false →
  isRecipesQuery queryKey = true →
  getQueryFn on401 qenv queryKey s =
    ((Returned (DataArray (fst (getRecipes s))), []), s).
Proof. intros Hoff Hrec. unfold getQueryFn. by rewrite Hoff, Hrec. Qed.

Lemma offline_recipe_query_is_served_from_cache_witness :
  getQueryFn throwOn401 qenv_offline recipes_key empty_store =
    ((Returned (DataArray (fst (getRecipes empty_store))), []), empty_store).
Proof.
  apply (offline_recipe_query_is_served_from_cache throwOn401 qenv_offline
           recipes_key empty_store); reflexivity.
Defined.

(** The fallback of the [catch] block is never what answers: whatever the
    query function returns after issuing a request comes from the network. *)
Lemma getQueryFn_cases on401 qenv queryKey s result issued s' :
  getQueryFn on401 qenv queryKey s = ((result, issued), s') →
  (q_onLine qenv = false ∧ isRecipesQuery queryKey = true ∧ issued = [] ∧
   result = Returned (DataArray (fst (getRecipes s))) ∧ s' = s) ∨
  (negb (q_onLine qenv) && isRecipesQuery queryKey = false ∧
   ((∃ e, result = Threw e ∧ s' = s) ∨
    (result = ReturnedNull ∧ s' = s) ∨
    (∃ req res data, issued = [req] ∧ q_fetch qenv req = inr res ∧
       q_ok res = true ∧ q_json res = inr data ∧ result = Returned data ∧
       s' = match data with
            | DataArray recipes =>
                if isRecipesQuery queryKey
                then snd (saveRecipes recipes s) else s
            | DataOther => s
            end))).
Proof.
  unfold getQueryFn, throwIfResNotOk, truthy_array.
  rewrite !andb_true_r.
  destruct (negb (q_onLine qenv) && isRecipesQuery queryKey) eqn:Hoff.
  - apply andb_true_iff in Hoff as [Hoff%negb_true_iff Hrec].
    intros [= <- <- <-]. by left.
  - intros H. right. split; [done|].
    repeat case_match; simplify_eq/=; eauto 10.
    all: right; right; eexists _, _, _; split_and!; try done;
      by destruct (q_ok _).
Qed.

(** X24: once the request is issued, a rejected [fetch] is thrown; the
    cache does not answer. *)
Theorem failed_query_is_not_answered_from_cache on401 qenv k rest s e :
  negb (q_onLine qenv) && isRecipesQuery (KStr k :: rest) = false →
  q_fetch qenv (query_request qenv k) = inl e →
  getQueryFn on401 qenv (KStr k :: rest) s =
    ((Threw e, [query_request qenv k]), s).
Proof.
  intros Hoff Hrej. unfold getQueryFn, truthy_array, query_url.
  rewrite !andb_true_r, Hoff. fold (query_request qenv k). by rewrite Hrej.
Qed.

Lemma failed_query_is_not_answered_from_cache_witness :
  getQueryFn throwOn401 qenv_unreachable recipes_key (store w_pie) =
    ((Threw (JsError "Failed to fetch"),
      [query_request qenv_unreachable "/api/recipes"]), store w_pie).
Proof.
  apply (failed_query_is_not_answered_from_cache throwOn401 qenv_unreachable
           "/api/recipes" [] (store w_pie) (JsError "Failed to fetch"));
    reflexivity.
Defined.

Lemma recipes_query_effects on401 qenv k rest s res recipes :
  q_onLine qenv = true →
  isRecipesQuery (KStr k :: rest) = true →
  q_fetch qenv (query_request qenv k) = inr res →
  q_ok res = true →
  q_json res = inr (DataArray recipes) →
  let out := getQueryFn on401 qenv (KStr k :: rest) s in
  fst out = (Returned (DataArray recipes), [query_request qenv k]) ∧
  fst (getRecipes (snd out)) = recipes ∧
  (∀ id, (∀ c, c ∈ recipes → recipe_id c ≠ id) →
         fst (getRecipe id (snd out)) = None) ∧
  slot_user (snd out) = slot_user s ∧ slot_token (snd out) = slot_token s ∧
  slot_outbox (snd out) = slot_outbox s.
Proof.
  intros Hon Hrec Hres Hok Hjson out.
  assert (out = ((Returned (DataArray recipes), [query_request qenv k]),
                 snd (saveRecipes recipes s))) as ->.
  { subst out. unfold getQueryFn, truthy_array, query_url, throwIfResNotOk.
    rewrite Hon, Hrec. fold (query_request qenv k). rewrite Hres, Hok, Hjson.
    simpl. rewrite (bool_decide_eq_false_2 (q_status res = 401)).
    - by rewrite andb_false_r.
    - unfold q_ok in Hok. apply andb_true_iff in Hok as [_ Hle%Z.leb_le]. lia. }
  split_and!; try done.
  intros id Hnone. rewrite getRecipe_find.
  rewrite (proj2 (list_find_None _ _)); [done|]. by apply Forall_forall.
Qed.

(** X25: a successful online recipes query that returns an array replaces
    the cached list by it. *)
Theorem recipes_query_replaces_the_cache on401 qenv k rest s res recipes :
  q_onLine qenv = true →
  isRecipesQuery (KStr k :: rest) = true →
  q_fetch qenv (query_request qenv k) = inr res →
  q_ok res = true →
  q_json res = inr (DataArray recipes) →
  let out := getQueryFn on401 qenv (KStr k :: rest) s in
  fst out = (Returned (DataArray recipes), [query_request qenv k]) ∧
  fst (getRecipes (snd out)) = recipes ∧
  (∀ id, (∀ c, c ∈ recipes → recipe_id c ≠ id) →
         fst (getRecipe id (snd out)) = None) ∧
  slot_user (snd out) = slot_user s ∧ slot_token (snd out) = slot_token s ∧
  slot_outbox (snd out) = slot_outbox s.
Proof. apply recipes_query_effects. Qed.

Lemma recipes_query_replaces_the_cache_witness :
  let out := getQueryFn throwOn401 qenv_server recipes_key (store w_pie) in
  fst out = (Returned (DataArray [server_pie]),
             [query_request qenv_server "/api/recipes"]) ∧
  fst (getRecipes (snd out)) = [server_pie] ∧
  (∀ id, (∀ c, c ∈ [server_pie] → recipe_id c ≠ id) →
         fst (getRecipe id (snd out)) = None) ∧
  slot_user (snd out) = slot_user (store w_pie) ∧
  slot_token (snd out) = slot_token (store w_pie) ∧
  slot_outbox (snd out) = slot_outbox (store w_pie).
Proof.
  apply (recipes_query_replaces_the_cache throwOn401 qenv_server "/api/recipes"
           [] (store w_pie)
           {| q_status := 200; q_text := ""; q_statusText := "OK";
              q_json := inr (DataArray [server_pie]) |} [server_pie]);
    reflexivity.
Defined.

(** X26: the query function writes nothing but the array an online recipes
    query returned. *)
Theorem getQueryFn_writes_only_fetched_recipes on401 qenv queryKey s :
  let out := getQueryFn on401 qenv queryKey s in
  slot_user (snd out) = slot_user s ∧
  slot_token (snd out) = slot_token s ∧
  slot_outbox (snd out) = slot_outbox s ∧
  (snd out = s ∨
   ∃ recipes, fst (fst out) = Returned (DataArray recipes) ∧
              isRecipesQuery queryKey = true ∧
              q_onLine qenv = true ∧
              snd out = snd (saveRecipes recipes s)).
Proof.
  intros out. destruct out as [[result issued] s'] eqn:Hout. subst out.
  apply getQueryFn_cases in Hout
    as [(_ & _ & -> & _ & ->)
       |(Hoff & [(e & _ & ->)|[(_ & ->)
              |(req & res & data & -> & _ & _ & _ & -> & ->)]])]; simpl;
    try (split_and!; [done..|by left]).
  destruct data as [recipes| ]; [ |split_and!; [done..|by left]].
  destruct (isRecipesQuery queryKey) eqn:Hrec; [ |split_and!; [done..|by left]].
  split_and!; [done..| ]. right. exists recipes. split_and!; try done.
  rewrite andb_true_r in Hoff. by apply negb_false_iff.
Qed.

(** X27: a 401 gives [null] under [returnNull] and an error carrying the
    status and text otherwise. *)
Theorem unauthorized_query on401 qenv k rest s res :
  negb (q_onLine qenv) && isRecipesQuery (KStr k :: rest) = false →
  q_fetch qenv (query_request qenv k) = inr res →
  q_status res = 401 →
  getQueryFn on401 qenv (KStr k :: rest) s =
    ((match on401 with
      | returnNull => ReturnedNull
      | throwOn401 =>
          Threw (JsError ("401: " +:+
                          (if bool_decide (q_text res = "")
                           then q_statusText res else q_text res)))
      end, [query_request qenv k]), s).
Proof.
  intros Hoff Hres Hst. unfold getQueryFn, truthy_array, query_url, throwIfResNotOk.
  rewrite !andb_true_r, Hoff. fold (query_request qenv k). rewrite Hres.
  unfold q_ok. rewrite Hst. by destruct on401.
Qed.

Lemma unauthorized_query_witness :
  getQueryFn returnNull qenv_unauthorized recipes_key (store w_pie) =
    ((ReturnedNull, [query_request qenv_unauthorized "/api/recipes"]),
     store w_pie) ∧
  getQueryFn throwOn401 qenv_unauthorized recipes_key (store w_pie) =
    ((Threw (JsError "401: Unauthorized"),
      [query_request qenv_unauthorized "/api/recipes"]), store w_pie).
Proof.
  split.
  - apply (unauthorized_query returnNull qenv_unauthorized "/api/recipes" []
             (store w_pie)
             {| q_status := 401; q_text := ""; q_statusText := "Unauthorized";
                q_json := inl (JsError "Unexpected end of JSON input") |});
      reflexivity.
  - apply (unauthorized_query throwOn401 qenv_unauthorized "/api/recipes" []
             (store w_pie)
             {| q_status := 401; q_text := ""; q_statusText := "Unauthorized";
                q_json := inl (JsError "Unexpected end of JSON input") |});
      reflexivity.
Defined.

(** X28: a refresh from the server drops a recipe saved offline from the
    cache while its creation is still queued. *)
Theorem refresh_drops_the_unsynced_recipe
    on401 qenv k rest recipe now_id now_ts s res recipes :
  q_onLine qenv = true →
  isRecipesQuery (KStr k :: rest) = true →
  q_fetch qenv (query_request qenv k) = inr res →
  q_ok res = true →
  q_json res = inr (DataArray recipes) →
  (∀ c, c ∈ recipes → recipe_id c ≠ recipe_id recipe) →
  let s1 := snd (saveOffline recipe now_id now_ts s) in
  let s2 := snd (getQueryFn on401 qenv (KStr k :: rest) s1) in
  fst (getRecipe (recipe_id recipe) s1) = Some recipe ∧
  fst (getRecipe (recipe_id recipe) s2) = None ∧
  queued_create recipe now_id now_ts ∈ pendingItems s2.
Proof.
  intros Hon Hrec Hres Hok Hjson Hnone s1 s2.
  pose proof (saveOffline_effects recipe now_id now_ts s)
    as (_ & Hget & _ & Hpend & _).
  pose proof (recipes_query_effects on401 qenv k rest s1 res recipes
                Hon Hrec Hres Hok Hjson) as (_ & _ & Hgone & _ & _ & Hbox).
  split_and!; [done|by apply Hgone| ].
  assert (pendingItems s2 = pendingItems s1) as ->.
  { unfold pendingItems, getOutbox. cbn [fst]. by rewrite <- Hbox. }
  unfold s1. rewrite Hpend. apply elem_of_app. right. left.
Qed.

Lemma refresh_drops_the_unsynced_recipe_witness :
  let s1 := snd (saveOffline pie 5 5 logged_in) in
  let s2 := snd (getQueryFn throwOn401 qenv_server recipes_key s1) in
  fst (getRecipe (recipe_id pie) s1) = Some pie ∧
  fst (getRecipe (recipe_id pie) s2) = None ∧
  queued_create pie 5 5 ∈ pendingItems s2.
Proof.
  apply (refresh_drops_the_unsynced_recipe throwOn401 qenv_server "/api/recipes"
           [] pie 5 5 logged_in
           {| q_status := 200; q_text := ""; q_statusText := "OK";
              q_json := inr (DataArray [server_pie]) |} [server_pie]);
    [reflexivity|reflexivity|reflexivity|reflexivity|reflexivity| ].
  apply Forall_forall. by_evaluation.
Defined.
